(** * Lottery number generators (src/utils/lotteryGenerators.ts)

    A shallow embedding of the four functions of the module
    ([getRandomNumber], [generateUniqueNumbers], [generatePowerballTicket],
    [generateMegaMillionsTicket]) together with the properties the
    specification states about them.

    Modelling choices.
    - JavaScript numbers that hold integers are [Z]; the value returned by
      [Math.random()] is a rational [Q] (every double is one).  Arithmetic is
      exact: the rounding of IEEE doubles is not modelled.  The code rounds
      the product of the sampler before it takes the floor, so that on some
      values of [Math.random] it returns the neighbour of the value computed
      here; beyond the safe integers it loses integers or overflows.  The
      properties below are therefore about the range of the sampler for
      safe-integer bounds, or about the values the sampler returns, not
      about which value of [Math.random] gives which result.
    - [Math.random] is the only effect of the module.  It is modelled by a
      source that fixes in advance the value returned by the n-th call, plus
      the number of calls made so far.
    - The [while] loop of [generateUniqueNumbers] is not bounded by anything
      in the code, so the embedding takes a bound on the number of iterations
      (fuel); the result [None] means that the loop is still running after
      that many iterations.  The source contains no [throw]: a call that
      finishes always finishes with a value. *)

From Stdlib Require Import String DecimalString DecimalNat.
From Stdlib Require Import ZArith QArith Qround List Bool Lia Permutation Sorted FinFun.
Import ListNotations.

Local Open Scope Z_scope.

(** ** The randomness source *)

Record RandomSource : Type := mkSource {
  outputs  : nat -> Q;   (* what the n-th call of Math.random() returns *)
  consumed : nat         (* how many calls have been made *)
}.

(** ECMAScript: [Math.random()] is greater than or equal to 0 and strictly
    less than 1. *)
Definition random_ok (rng : RandomSource) : Prop :=
  forall n : nat, (0 <= outputs rng n)%Q /\ (outputs rng n < 1)%Q.

(** ** Computations that call Math.random and may still be running *)

Definition M (A : Type) : Type := RandomSource -> option (A * RandomSource).

Definition ret {A : Type} (a : A) : M A := fun rng => Some (a, rng).

Definition bind {A B : Type} (m : M A) (k : A -> M B) : M B :=
  fun rng =>
    match m rng with
    | Some (a, rng') => k a rng'
    | None => None
    end.

Notation "x <- m ;; k" := (bind m (fun x => k))
  (at level 61, m at next level, right associativity).

Definition Math_random : M Q :=
  fun rng => Some (outputs rng (consumed rng),
                   mkSource (outputs rng) (S (consumed rng))).

Definition Math_floor (q : Q) : Z := Qfloor q.

(** ** JavaScript's Set<number>, in insertion order *)

Module JSSet.

Definition t : Type := list Z.

Definition empty : t := [].

Definition has (x : Z) (s : t) : bool := existsb (Z.eqb x) s.

(* add leaves the set alone when the value is already a member, and
   appends it otherwise *)
Definition add (x : Z) (s : t) : t := if has x s then s else s ++ [x].

Definition size (s : t) : Z := Z.of_nat (length s).

(* Array.from(set): the members in insertion order *)
Definition to_array (s : t) : list Z := s.

End JSSet.

(** ** Array.prototype.sort with a comparator

    The sort of ECMAScript is stable; a stable insertion sort computes the
    same array for every consistent comparator. *)

Fixpoint sort_insert (cmp : Z -> Z -> Z) (x : Z) (l : list Z) : list Z :=
  match l with
  | [] => [x]
  | y :: l' => if cmp x y <=? 0 then x :: y :: l' else y :: sort_insert cmp x l'
  end.

Fixpoint Array_sort (cmp : Z -> Z -> Z) (l : list Z) : list Z :=
  match l with
  | [] => []
  | x :: l' => sort_insert cmp x (Array_sort cmp l')
  end.

(** Reading an array at an index: [None] is JavaScript's [undefined], the
    value of an access outside the array. *)
Definition Array_get (l : list Z) (i : Z) : option Z :=
  if i <? 0 then None else nth_error l (Z.to_nat i).

(** ** The module *)

Record PowerballTicket : Type := mkPowerballTicket {
  pb_numbers : list Z;
  powerball  : Z;
  powerPlay  : option Z
}.

Record MegaMillionsTicket : Type := mkMegaMillionsTicket {
  mm_numbers : list Z;
  megaBall   : Z;
  megaplier  : option Z
}.

(* return Math.floor(Math.random() * (max - min + 1)) + min; *)
Definition getRandomNumber (min max : Z) : M Z :=
  r <- Math_random ;;
  ret (Math_floor (r * inject_Z (max - min + 1)) + min).

(* while (numbers.size < count) { numbers.add(getRandomNumber(min, max)); } *)
Fixpoint unique_loop (fuel : nat) (count min max : Z) (numbers : JSSet.t)
  : M JSSet.t :=
  if JSSet.size numbers <? count then
    match fuel with
    | O => fun _ => None
    | S fuel' =>
        x <- getRandomNumber min max ;;
        unique_loop fuel' count min max (JSSet.add x numbers)
    end
  else ret numbers.

Definition generateUniqueNumbers (fuel : nat) (count min max : Z)
  : M (list Z) :=
  numbers <- unique_loop fuel count min max JSSet.empty ;;
  ret (Array_sort (fun a b => a - b) (JSSet.to_array numbers)).

Definition powerPlayOptions : list Z := [2; 3; 4; 5; 10].

Definition generatePowerballTicket (fuel : nat) : M PowerballTicket :=
  numbers <- generateUniqueNumbers fuel 5 1 69 ;;
  powerball <- getRandomNumber 1 26 ;;
  powerPlay <- (i <- getRandomNumber 0 (Z.of_nat (length powerPlayOptions) - 1) ;;
                ret (Array_get powerPlayOptions i)) ;;
  ret (mkPowerballTicket numbers powerball powerPlay).

Definition megaplierOptions : list Z := [2; 3; 4; 5].

Definition generateMegaMillionsTicket (fuel : nat) : M MegaMillionsTicket :=
  numbers <- generateUniqueNumbers fuel 5 1 70 ;;
  megaBall <- getRandomNumber 1 25 ;;
  megaplier <- (i <- getRandomNumber 0 (Z.of_nat (length megaplierOptions) - 1) ;;
                ret (Array_get megaplierOptions i)) ;;
  ret (mkMegaMillionsTicket numbers megaBall megaplier).

(** ** What the sampler returns on a given source *)

(** The value [getRandomNumber min max] computes from the k-th call of
    [Math.random] counted from the current position of the source. *)
Definition sampleAt (rng : RandomSource) (k : nat) (min max : Z) : Z :=
  Math_floor (outputs rng (k + consumed rng)%nat * inject_Z (max - min + 1)) + min.

(** The first [n] values [getRandomNumber min max] returns from [rng] on. *)
Definition samples (rng : RandomSource) (min max : Z) (n : nat) : list Z :=
  map (fun k => sampleAt rng k min max) (seq 0 n).

(** The values returned by successive sampler calls with the given bounds. *)
Fixpoint sampler_trace (rng : RandomSource) (k : nat) (bounds : list (Z * Z))
  : list Z :=
  match bounds with
  | [] => []
  | (min, max) :: bounds' =>
      sampleAt rng k min max :: sampler_trace rng (S k) bounds'
  end.

(** The source after [n] more calls of [Math.random]. *)
Definition advance (n : nat) (rng : RandomSource) : RandomSource :=
  mkSource (outputs rng) (n + consumed rng).

(** Number of distinct values in a list. *)
Definition distinct (l : list Z) : Z := Z.of_nat (length (nodup Z.eq_dec l)).

(** The set after adding the values of a list one after the other. *)
Definition add_all (s : JSSet.t) (l : list Z) : JSSet.t :=
  fold_left (fun acc x => JSSet.add x acc) l s.

(** The comparator [(a, b) => a - b] of the source. *)
Definition numeric : Z -> Z -> Z := fun a b => a - b.

(** A constant source and a source that replays a list of values. *)
Definition constant_source (q : Q) : RandomSource := mkSource (fun _ => q) 0.

Definition replay_source (l : list Q) : RandomSource :=
  mkSource (fun n => nth n l 0%Q) 0.

(** The source whose n-th value is [(n mod p) / p]. *)
Definition cycling_source (p : positive) : RandomSource :=
  mkSource (fun n => (Z.of_nat n mod Zpos p) # p) 0.

(** A computation that is still running after any number of iterations of
    its loop: the call never returns. *)
Definition never_returns {A : Type} (run : nat -> M A) (rng : RandomSource) : Prop :=
  forall fuel : nat, run fuel rng = None.

(** [Number.MAX_SAFE_INTEGER] and [Number.isSafeInteger]: the integers that
    a JavaScript number holds exactly, each of its neighbours included. *)
Definition MAX_SAFE_INTEGER : Z := 2 ^ 53 - 1.

Definition isSafeInteger (z : Z) : Prop :=
  - MAX_SAFE_INTEGER <= z <= MAX_SAFE_INTEGER.

(** The bounds of the successive sampler calls of a ticket generation whose
    loop makes [n] iterations: [n] white-ball draws, the special ball, the
    index of the multiplier. *)
Definition powerball_calls (n : nat) : list (Z * Z) :=
  repeat (1, 69) n ++ [(1, 26); (0, 4)].

Definition megamillions_calls (n : nat) : list (Z * Z) :=
  repeat (1, 70) n ++ [(1, 25); (0, 3)].

(** Two sources with different values of [Math.random], on which the sampler
    calls of the Powerball generator return 5, 12, 12, 23, 45, 67, 15, 3. *)
Definition powerball_source_a : RandomSource :=
  replay_source [4 # 69; 11 # 69; 11 # 69; 22 # 69; 44 # 69; 66 # 69; 14 # 26; 3 # 5]%Q.

Definition powerball_source_b : RandomSource :=
  replay_source [9 # 138; 23 # 138; 47 # 276; 45 # 138; 89 # 138; 133 # 138;
                 29 # 52; 7 # 10]%Q.

(** ** Validity of a ticket *)

(** A Powerball ticket as the rules have it: 5 white balls of 1-69 in
    ascending order, a Powerball of 1-26, a Power Play of the option list. *)
Definition valid_powerball (t : PowerballTicket) : Prop :=
  length (pb_numbers t) = 5%nat
  /\ Sorted Z.lt (pb_numbers t)
  /\ Forall (fun x => 1 <= x <= 69) (pb_numbers t)
  /\ 1 <= powerball t <= 26
  /\ exists m, powerPlay t = Some m /\ In m powerPlayOptions.

Definition valid_megamillions (t : MegaMillionsTicket) : Prop :=
  length (mm_numbers t) = 5%nat
  /\ Sorted Z.lt (mm_numbers t)
  /\ Forall (fun x => 1 <= x <= 70) (mm_numbers t)
  /\ 1 <= megaBall t <= 25
  /\ exists m, megaplier t = Some m /\ In m megaplierOptions.

(** The values of [Math.random] that make the sampler, called with the
    bounds [min] and [max], return the values of a list. *)
Definition draws_for (min max : Z) (l : list Z) : list Q :=
  map (fun x => (x - min) # Z.to_pos (max - min + 1)) l.

(** ** The component LotteryTicket (components/LotteryTicket.tsx) *)

(* type: 'powerball' | 'megamillions' *)
Inductive LotteryType : Type := type_powerball | type_megamillions.

Definition type_string (type : LotteryType) : string :=
  match type with
  | type_powerball => "powerball"%string
  | type_megamillions => "megamillions"%string
  end.

(* ticket: PowerballTicket | MegaMillionsTicket *)
Inductive Ticket : Type :=
| PowerballObject (t : PowerballTicket)
| MegaMillionsObject (t : MegaMillionsTicket).

(** Reading a property of the object: the casts of the component are erased
    at run time, and a property the object does not have reads as
    [undefined] ([None]). *)
Definition get_numbers (ticket : Ticket) : list Z :=
  match ticket with
  | PowerballObject t => pb_numbers t
  | MegaMillionsObject t => mm_numbers t
  end.

Definition get_powerball (ticket : Ticket) : option Z :=
  match ticket with
  | PowerballObject t => Some (powerball t)
  | MegaMillionsObject _ => None
  end.

Definition get_megaBall (ticket : Ticket) : option Z :=
  match ticket with
  | PowerballObject _ => None
  | MegaMillionsObject t => Some (megaBall t)
  end.

Definition get_powerPlay (ticket : Ticket) : option Z :=
  match ticket with
  | PowerballObject t => powerPlay t
  | MegaMillionsObject _ => None
  end.

Definition get_megaplier (ticket : Ticket) : option Z :=
  match ticket with
  | PowerballObject _ => None
  | MegaMillionsObject t => megaplier t
  end.

(** The type whose interface the object has. *)
Definition ticket_type (ticket : Ticket) : LotteryType :=
  match ticket with
  | PowerballObject _ => type_powerball
  | MegaMillionsObject _ => type_megamillions
  end.

(* arr.map((x, idx) => f(x, idx)) *)
Fixpoint Array_map_from {A B : Type} (idx : nat) (f : A -> nat -> B) (l : list A)
  : list B :=
  match l with
  | [] => []
  | x :: l' => f x idx :: Array_map_from (S idx) f l'
  end.

Definition Array_map {A B : Type} (f : A -> nat -> B) (l : list A) : list B :=
  Array_map_from 0 f l.

(** What the component renders: the class names and the texts that depend
    on the props.  A number is kept as a number, not as its text; the
    multiplier is followed by the letter x on the page. *)
Record TicketCard : Type := mkTicketCard {
  card_className        : string;             (* `lottery-ticket ${type}` *)
  card_title            : string;             (* the h3 of the header *)
  card_numbers          : list (nat * Z);     (* key and content of each white ball *)
  card_specialBallLabel : string;
  card_specialBallClass : string;             (* `number-ball special-ball ${type}` *)
  card_specialBall      : option Z;
  card_multiplierLabel  : string;
  card_multiplier       : option Z
}.

Definition isPowerball (type : LotteryType) : bool :=
  match type with
  | type_powerball => true
  | type_megamillions => false
  end.

Definition LotteryTicket (type : LotteryType) (ticket : Ticket) : TicketCard :=
  let specialBall :=
    if isPowerball type then get_powerball ticket else get_megaBall ticket in
  let multiplier :=
    if isPowerball type then get_powerPlay ticket else get_megaplier ticket in
  let specialBallLabel :=
    (if isPowerball type then "Powerball" else "Mega Ball")%string in
  let multiplierLabel :=
    (if isPowerball type then "Power Play" else "Megaplier")%string in
  mkTicketCard
    ("lottery-ticket " ++ type_string type)%string
    (if isPowerball type then "Powerball" else "Mega Millions")%string
    (Array_map (fun num idx => (idx, num)) (get_numbers ticket))
    specialBallLabel
    ("number-ball special-ball " ++ type_string type)%string
    specialBall
    multiplierLabel
    multiplier.

(** ** The component App (App.tsx) *)

(* the two useState cells *)
Record AppState : Type := mkAppState {
  powerballTickets    : list PowerballTicket;
  megaMillionsTickets : list MegaMillionsTicket
}.

Definition App_initial : AppState := mkAppState [] [].

(* setPowerballTickets([newTicket, ...powerballTickets]) *)
Definition handleGeneratePowerball (fuel : nat) (st : AppState) : M AppState :=
  newTicket <- generatePowerballTicket fuel ;;
  ret (mkAppState (newTicket :: powerballTickets st) (megaMillionsTickets st)).

Definition handleGenerateMegaMillions (fuel : nat) (st : AppState) : M AppState :=
  newTicket <- generateMegaMillionsTicket fuel ;;
  ret (mkAppState (powerballTickets st) (newTicket :: megaMillionsTickets st)).

Definition handleClearAll (st : AppState) : M AppState :=
  ret (mkAppState [] []).

(** The three buttons. *)
Inductive Click : Type := ClickPowerball | ClickMegaMillions | ClickClearAll.

Definition App_click (fuel : nat) (c : Click) (st : AppState) : M AppState :=
  match c with
  | ClickPowerball => handleGeneratePowerball fuel st
  | ClickMegaMillions => handleGenerateMegaMillions fuel st
  | ClickClearAll => handleClearAll st
  end.

(** A sequence of clicks, each handled on the state the one before left. *)
Fixpoint App_clicks (fuel : nat) (cs : list Click) (st : AppState) : M AppState :=
  match cs with
  | [] => ret st
  | c :: cs' => st' <- App_click fuel c st ;; App_clicks fuel cs' st'
  end.

(* the text of a number in a template literal *)
Definition decimal (n : nat) : string := NilEmpty.string_of_uint (Nat.to_uint n).

(** What App renders: whether the Clear All button and the empty-state
    message are on the page, and the children of the tickets container with
    their keys. *)
Record AppView : Type := mkAppView {
  view_clearButton : bool;
  view_tickets     : list (string * TicketCard);
  view_emptyState  : bool
}.

Definition App_render (st : AppState) : AppView :=
  mkAppView
    ((0 <? Z.of_nat (length (powerballTickets st)))
     || (0 <? Z.of_nat (length (megaMillionsTickets st))))
    (Array_map
       (fun ticket idx =>
          (("powerball-" ++ decimal idx)%string,
           LotteryTicket type_powerball (PowerballObject ticket)))
       (powerballTickets st)
     ++ Array_map
          (fun ticket idx =>
             (("megamillions-" ++ decimal idx)%string,
              LotteryTicket type_megamillions (MegaMillionsObject ticket)))
          (megaMillionsTickets st))
    ((Z.of_nat (length (powerballTickets st)) =? 0)
     && (Z.of_nat (length (megaMillionsTickets st)) =? 0)).

(** The number of tickets of one kind on the page after a sequence of
    clicks, counted on the clicks alone: Clear All starts again from 0. *)
Fixpoint count_clicks (kind : Click -> bool) (cs : list Click) (n : nat) : nat :=
  match cs with
  | [] => n
  | ClickClearAll :: cs' => count_clicks kind cs' 0
  | c :: cs' => count_clicks kind cs' (if kind c then S n else n)
  end.

Definition is_powerball_click (c : Click) : bool :=
  match c with ClickPowerball => true | _ => false end.

Definition is_megamillions_click (c : Click) : bool :=
  match c with ClickMegaMillions => true | _ => false end.

(** ** The sampler *)

Lemma floor_scale_range (r : Q) (n : Z) :
  (0 <= r)%Q -> (r < 1)%Q -> 0 < n ->
  0 <= Math_floor (r * inject_Z n) < n.
Proof.
  intros Hr0 Hr1 Hn. unfold Math_floor.
  assert (Hn' : (0 < inject_Z n)%Q).
  { change (inject_Z 0 < inject_Z n)%Q. rewrite <- Zlt_Qlt. exact Hn. }
  split.
  - change 0 with (Qfloor (inject_Z 0)).
    apply Qfloor_resp_le. apply Qmult_le_0_compat; [exact Hr0|].
    apply Qlt_le_weak. exact Hn'.
  - rewrite Zlt_Qlt.
    apply Qle_lt_trans with (r * inject_Z n)%Q; [apply Qfloor_le|].
    setoid_replace (inject_Z n) with (1 * inject_Z n)%Q at 2 by ring.
    apply Qmult_lt_compat_r; assumption.
Qed.

Lemma sampleAt_range (rng : RandomSource) (k : nat) (min max : Z) :
  random_ok rng -> min <= max -> min <= sampleAt rng k min max <= max.
Proof.
  intros Hok Hle. unfold sampleAt.
  destruct (Hok (k + consumed rng)%nat) as [H0 H1].
  pose proof (floor_scale_range _ (max - min + 1) H0 H1 ltac:(lia)). lia.
Qed.

Lemma getRandomNumber_run (min max : Z) (rng : RandomSource) :
  getRandomNumber min max rng = Some (sampleAt rng 0 min max, advance 1 rng).
Proof. reflexivity. Qed.

Lemma sampleAt_advance (n k : nat) (rng : RandomSource) (min max : Z) :
  sampleAt (advance n rng) k min max = sampleAt rng (k + n) min max.
Proof. unfold sampleAt, advance; simpl. now rewrite Nat.add_assoc. Qed.

Lemma advance_advance (n m : nat) (rng : RandomSource) :
  advance n (advance m rng) = advance (n + m) rng.
Proof. unfold advance; simpl. now rewrite Nat.add_assoc. Qed.

Lemma samples_S (rng : RandomSource) (min max : Z) (n : nat) :
  samples rng min max (S n)
  = sampleAt rng 0 min max :: samples (advance 1 rng) min max n.
Proof.
  unfold samples. cbn [seq map]. f_equal.
  rewrite <- seq_shift, map_map. apply map_ext. intros k.
  rewrite sampleAt_advance. f_equal. lia.
Qed.

Lemma samples_length (rng : RandomSource) (min max : Z) (n : nat) :
  length (samples rng min max n) = n.
Proof. unfold samples. now rewrite length_map, length_seq. Qed.

Lemma samples_range (rng : RandomSource) (min max : Z) (n : nat) :
  random_ok rng -> min <= max ->
  Forall (fun x => min <= x <= max) (samples rng min max n).
Proof.
  intros Hok Hle. unfold samples. apply Forall_forall. intros x Hx.
  apply in_map_iff in Hx. destruct Hx as [k [<- _]].
  now apply sampleAt_range.
Qed.

(** ** The set *)

Module JSSetFacts.

Import JSSet.

Lemma has_In (x : Z) (s : t) : has x s = true <-> In x s.
Proof.
  unfold has. rewrite existsb_exists. split.
  - intros [y [Hy Heq]]. apply Z.eqb_eq in Heq. now subst.
  - intros H. exists x. split; [exact H | apply Z.eqb_refl].
Qed.

Lemma add_In (x y : Z) (s : t) : In y (add x s) <-> y = x \/ In y s.
Proof.
  unfold add. destruct (has x s) eqn:E.
  - apply has_In in E. split; [now right | intros [-> | H]; assumption].
  - rewrite in_app_iff. simpl. intuition congruence.
Qed.

Lemma add_NoDup (x : Z) (s : t) : NoDup s -> NoDup (add x s).
Proof.
  intros H. unfold add. destruct (has x s) eqn:E; [exact H|].
  apply NoDup_app; [exact H | repeat constructor; simpl; tauto |].
  intros y Hy [<- | []]. apply has_In in Hy. congruence.
Qed.

(* one call of add makes the set larger by one member at most *)
Lemma add_size (x : Z) (s : t) : size s <= size (add x s) <= size s + 1.
Proof.
  unfold add, size. destruct (has x s); [lia|].
  rewrite length_app. simpl. lia.
Qed.

Lemma add_all_In (l : list Z) (s : t) (y : Z) :
  In y (add_all s l) <-> In y s \/ In y l.
Proof.
  revert s. induction l as [|x l IH]; intros s; simpl.
  - tauto.
  - unfold add_all in *. simpl. rewrite IH, add_In. intuition congruence.
Qed.

Lemma add_all_NoDup (l : list Z) (s : t) : NoDup s -> NoDup (add_all s l).
Proof.
  revert s. induction l as [|x l IH]; intros s H; simpl; [exact H|].
  apply IH. now apply add_NoDup.
Qed.

End JSSetFacts.

(** ** The sort *)

Section Sorting.

Variable cmp : Z -> Z -> Z.

Lemma sort_insert_perm (x : Z) (l : list Z) :
  Permutation (sort_insert cmp x l) (x :: l).
Proof.
  induction l as [|y l IH]; simpl; [reflexivity|].
  destruct (cmp x y <=? 0); [reflexivity|].
  rewrite IH. apply perm_swap.
Qed.

Lemma Array_sort_perm (l : list Z) : Permutation (Array_sort cmp l) l.
Proof.
  induction l as [|x l IH]; simpl; [reflexivity|].
  rewrite sort_insert_perm. now constructor.
Qed.

End Sorting.

Lemma sort_insert_sorted (x : Z) (l : list Z) :
  Sorted Z.le l -> Sorted Z.le (sort_insert numeric x l).
Proof.
  induction 1 as [|y l Hs IH Hd]; simpl.
  - repeat constructor.
  - unfold numeric at 1. destruct (Z.leb_spec (x - y) 0) as [Hxy | Hxy].
    + repeat constructor; [assumption | assumption | lia].
    + constructor; [exact IH|].
      destruct Hd as [|z l Hyz]; simpl.
      * constructor. lia.
      * unfold numeric. destruct (x - z <=? 0); constructor; lia.
Qed.

Lemma Array_sort_sorted (l : list Z) : Sorted Z.le (Array_sort numeric l).
Proof.
  induction l as [|x l IH]; simpl; [constructor|].
  now apply sort_insert_sorted.
Qed.

Lemma Sorted_le_NoDup_lt (l : list Z) :
  Sorted Z.le l -> NoDup l -> Sorted Z.lt l.
Proof.
  induction 1 as [|x l Hs IH Hd]; intros Hnd; [constructor|].
  inversion Hnd as [|? ? Hnotin Hnd']; subst.
  constructor; [now apply IH|].
  destruct Hd as [|y l Hxy]; constructor.
  assert (x <> y) by (intros ->; apply Hnotin; now left). lia.
Qed.

(** Sorting the members of a set gives a strictly ascending array with the
    same members. *)
Lemma Array_sort_set (s : list Z) :
  NoDup s ->
  Sorted Z.lt (Array_sort numeric s)
  /\ NoDup (Array_sort numeric s)
  /\ length (Array_sort numeric s) = length s
  /\ (forall x, In x (Array_sort numeric s) <-> In x s).
Proof.
  intros Hnd. pose proof (Array_sort_perm numeric s) as Hp.
  assert (Hnd' : NoDup (Array_sort numeric s))
    by (eapply Permutation_NoDup; [symmetry; exact Hp | exact Hnd]).
  repeat split.
  - apply Sorted_le_NoDup_lt; [apply Array_sort_sorted | exact Hnd'].
  - exact Hnd'.
  - now apply Permutation_length.
  - now apply Permutation_in.
  - apply Permutation_in. now symmetry.
Qed.

(** ** The loop of generateUniqueNumbers *)

Lemma advance_0 (rng : RandomSource) : advance 0 rng = rng.
Proof. now destruct rng. Qed.

Lemma advance_inj (n m : nat) (rng : RandomSource) :
  advance n rng = advance m rng -> n = m.
Proof. unfold advance. intros H. injection H as H. lia. Qed.

Lemma distinct_incl (l1 l2 : list Z) : incl l1 l2 -> distinct l1 <= distinct l2.
Proof.
  intros H. unfold distinct. apply inj_le. apply NoDup_incl_length.
  - apply NoDup_nodup.
  - intros x Hx. apply nodup_In. apply H. eapply nodup_In. exact Hx.
Qed.

Lemma distinct_NoDup (l : list Z) : NoDup l -> distinct l = Z.of_nat (length l).
Proof. intros H. unfold distinct. now rewrite nodup_fixed_point. Qed.

Section Loop.

Import JSSet JSSetFacts.

Variables count min max : Z.

Lemma unique_loop_eq (fuel : nat) (numbers : t) (rng : RandomSource) :
  unique_loop fuel count min max numbers rng =
  if size numbers <? count then
    match fuel with
    | O => None
    | S fuel' =>
        unique_loop fuel' count min max
          (add (sampleAt rng 0 min max) numbers) (advance 1 rng)
    end
  else Some (numbers, rng).
Proof. destruct fuel; simpl; destruct (size numbers <? count); reflexivity. Qed.

(** A finished loop made some number [n] of iterations, one sampler call
    each; the set holds the values sampled and has reached [count]
    members. *)
Lemma unique_loop_run (fuel : nat) :
  forall (numbers : t) (rng : RandomSource) (res : t) (rng' : RandomSource),
    unique_loop fuel count min max numbers rng = Some (res, rng') ->
    exists n : nat,
      (n <= fuel)%nat
      /\ rng' = advance n rng
      /\ res = add_all numbers (samples rng min max n)
      /\ count <= size res
      /\ (size numbers <= count -> size res = count).
Proof.
  induction fuel as [|fuel IH]; intros numbers rng res rng';
    rewrite unique_loop_eq; destruct (Z.ltb_spec (size numbers) count) as [Hlt | Hge];
    intros H; try discriminate.
  - injection H as <- <-. exists 0%nat. rewrite advance_0. simpl.
    repeat split; [lia | lia | lia].
  - apply IH in H. destruct H as [n [Hn [Hr [Hres [Hc Hs]]]]].
    exists (S n). rewrite samples_S. rewrite Hr, advance_advance.
    replace (n + 1)%nat with (S n) by lia.
    repeat split; [lia | exact Hres | exact Hc |].
    intros _. apply Hs.
    pose proof (add_size (sampleAt rng 0 min max) numbers). lia.
  - injection H as <- <-. exists 0%nat. rewrite advance_0. simpl.
    repeat split; [lia | lia | lia].
Qed.

(** More fuel does not change the result of a loop that has finished. *)
Lemma unique_loop_fuel (fuel fuel' : nat) :
  (fuel <= fuel')%nat ->
  forall (numbers : t) (rng : RandomSource) (r : t * RandomSource),
    unique_loop fuel count min max numbers rng = Some r ->
    unique_loop fuel' count min max numbers rng = Some r.
Proof.
  revert fuel'. induction fuel as [|fuel IH]; intros fuel' Hle numbers rng r H;
    rewrite unique_loop_eq in H |- *;
    destruct (size numbers <? count); try discriminate; try exact H.
  destruct fuel' as [|fuel']; [lia|]. revert H. apply IH. lia.
Qed.

(** The loop finishes as soon as the values sampled, with those already in
    the set, make [count] distinct values. *)
Lemma unique_loop_terminates (n : nat) :
  forall (numbers : t) (rng : RandomSource),
    NoDup numbers ->
    count <= distinct (numbers ++ samples rng min max n) ->
    exists r, unique_loop n count min max numbers rng = Some r.
Proof.
  induction n as [|n IH]; intros numbers rng Hnd Hc;
    rewrite unique_loop_eq; destruct (Z.ltb_spec (size numbers) count) as [Hlt | Hge];
    try (eexists; reflexivity).
  - exfalso. simpl in Hc. rewrite app_nil_r, distinct_NoDup in Hc by exact Hnd.
    unfold size in Hlt. lia.
  - apply IH; [now apply add_NoDup|].
    etransitivity; [exact Hc|]. apply distinct_incl.
    rewrite samples_S. intros y. rewrite !in_app_iff, add_In. simpl.
    intuition congruence.
Qed.

(** The loop reads the source through the sampler only: on two sources
    that make the sampler return the same values it makes the same number
    of iterations and builds the same set. *)
Lemma unique_loop_ext (fuel : nat) :
  forall (numbers : t) (rng1 rng2 : RandomSource) (res : t) (rng1' : RandomSource),
    (forall k, sampleAt rng1 k min max = sampleAt rng2 k min max) ->
    unique_loop fuel count min max numbers rng1 = Some (res, rng1') ->
    exists n : nat,
      rng1' = advance n rng1
      /\ unique_loop fuel count min max numbers rng2 = Some (res, advance n rng2).
Proof.
  induction fuel as [|fuel IH]; intros numbers rng1 rng2 res rng1' Hsame H;
    rewrite unique_loop_eq in H |- *;
    destruct (size numbers <? count); try discriminate.
  - injection H as <- <-. exists 0%nat. now rewrite !advance_0.
  - rewrite <- (Hsame 0%nat).
    apply (IH _ _ (advance 1 rng2)) in H.
    + destruct H as [n [Hr H]]. exists (n + 1)%nat.
      rewrite <- !advance_advance. now split.
    + intros k. rewrite !sampleAt_advance. apply Hsame.
  - injection H as <- <-. exists 0%nat. now rewrite !advance_0.
Qed.

(** The loop reads the source through the values of the sampler calls it
    makes: a run that made [n] iterations is repeated, with the same set at
    the end, on every source on which the first [n] calls of the sampler
    return the same values. *)
Lemma unique_loop_trace (fuel : nat) :
  forall (numbers : t) (rng1 rng2 : RandomSource) (res : t) (n fuel2 : nat),
    unique_loop fuel count min max numbers rng1 = Some (res, advance n rng1) ->
    samples rng2 min max n = samples rng1 min max n ->
    (n <= fuel2)%nat ->
    unique_loop fuel2 count min max numbers rng2 = Some (res, advance n rng2).
Proof.
  induction fuel as [|fuel IH]; intros numbers rng1 rng2 res n fuel2 H Hsame Hfuel;
    rewrite unique_loop_eq in H |- *;
    destruct (size numbers <? count); try discriminate.
  - injection H as <- Hr. rewrite <- (advance_0 rng1) in Hr at 1.
    apply advance_inj in Hr. subst n. now rewrite advance_0.
  - pose proof H as Hrun. apply unique_loop_run in Hrun.
    destruct Hrun as [m [_ [Hr _]]]. rewrite advance_advance in Hr.
    apply advance_inj in Hr. subst n.
    replace (m + 1)%nat with (S m) in * by lia.
    rewrite !samples_S in Hsame. injection Hsame as Hhead Htail.
    destruct fuel2 as [|fuel2]; [lia|]. rewrite Hhead.
    replace (advance (S m) rng2) with (advance m (advance 1 rng2))
      by (rewrite advance_advance; f_equal; lia).
    apply (IH _ (advance 1 rng1)).
    + rewrite H. rewrite advance_advance. do 3 f_equal. lia.
    + exact Htail.
    + lia.
  - injection H as <- Hr. rewrite <- (advance_0 rng1) in Hr at 1.
    apply advance_inj in Hr. subst n. now rewrite advance_0.
Qed.

End Loop.

(** ** generateUniqueNumbers *)

Lemma generateUniqueNumbers_eq (fuel : nat) (count min max : Z) (rng : RandomSource) :
  generateUniqueNumbers fuel count min max rng =
  match unique_loop fuel count min max JSSet.empty rng with
  | Some (numbers, rng') => Some (Array_sort numeric numbers, rng')
  | None => None
  end.
Proof.
  unfold generateUniqueNumbers, bind.
  destruct (unique_loop fuel count min max JSSet.empty rng) as [[? ?]|]; reflexivity.
Qed.

(** A call that returns has made [n] sampler calls for some [n], and returns
    the sorted members of the set built from the [n] values. *)
Lemma generateUniqueNumbers_run (fuel : nat) (count min max : Z)
      (rng : RandomSource) (res : list Z) (rng' : RandomSource) :
  generateUniqueNumbers fuel count min max rng = Some (res, rng') ->
  exists (n : nat) (s : JSSet.t),
    (n <= fuel)%nat
    /\ rng' = advance n rng
    /\ s = add_all JSSet.empty (samples rng min max n)
    /\ res = Array_sort numeric s
    /\ NoDup s
    /\ count <= JSSet.size s
    /\ (0 <= count -> JSSet.size s = count).
Proof.
  rewrite generateUniqueNumbers_eq.
  destruct (unique_loop fuel count min max JSSet.empty rng) as [[s r]|] eqn:E;
    [|discriminate].
  intros H. injection H as <- <-.
  apply unique_loop_run in E. destruct E as [n [Hn [Hr [Hs [Hc Hz]]]]].
  exists n, s. repeat split; try assumption.
  subst s. apply JSSetFacts.add_all_NoDup. constructor.
Qed.

Lemma generateUniqueNumbers_fuel (fuel fuel' : nat) (count min max : Z)
      (rng : RandomSource) (r : list Z * RandomSource) :
  (fuel <= fuel')%nat ->
  generateUniqueNumbers fuel count min max rng = Some r ->
  generateUniqueNumbers fuel' count min max rng = Some r.
Proof.
  intros Hle. rewrite !generateUniqueNumbers_eq.
  destruct (unique_loop fuel count min max JSSet.empty rng) as [p|] eqn:E;
    [|discriminate].
  now rewrite (unique_loop_fuel count min max fuel fuel' Hle _ _ _ E).
Qed.

Lemma generateUniqueNumbers_terminates (n : nat) (count min max : Z)
      (rng : RandomSource) :
  count <= distinct (samples rng min max n) ->
  exists res rng', generateUniqueNumbers n count min max rng = Some (res, rng').
Proof.
  intros H. rewrite generateUniqueNumbers_eq.
  destruct (unique_loop_terminates count min max n JSSet.empty rng) as [[s r] E].
  - constructor.
  - exact H.
  - rewrite E. eauto.
Qed.

Lemma generateUniqueNumbers_ext (fuel : nat) (count min max : Z)
      (rng1 rng2 : RandomSource) (res : list Z) (rng1' : RandomSource) :
  (forall k, sampleAt rng1 k min max = sampleAt rng2 k min max) ->
  generateUniqueNumbers fuel count min max rng1 = Some (res, rng1') ->
  exists n : nat,
    rng1' = advance n rng1
    /\ generateUniqueNumbers fuel count min max rng2 = Some (res, advance n rng2).
Proof.
  intros Hsame. rewrite !generateUniqueNumbers_eq.
  destruct (unique_loop fuel count min max JSSet.empty rng1) as [[s r]|] eqn:E;
    [|discriminate].
  intros H. injection H as <- <-.
  destruct (unique_loop_ext count min max fuel _ rng1 rng2 _ _ Hsame E) as [n [Hr E2]].
  exists n. now rewrite E2.
Qed.

(** With nothing to collect the loop body is not entered. *)
Lemma generateUniqueNumbers_no_iteration (fuel : nat) (count min max : Z)
      (rng : RandomSource) :
  count <= 0 ->
  generateUniqueNumbers fuel count min max rng = Some ([], rng).
Proof.
  intros H. rewrite generateUniqueNumbers_eq, unique_loop_eq.
  change (JSSet.size JSSet.empty) with 0.
  destruct (Z.ltb_spec 0 count); [lia | reflexivity].
Qed.

(** What a call that returns returns. *)
Lemma generateUniqueNumbers_result (fuel : nat) (count min max : Z)
      (rng : RandomSource) (res : list Z) (rng' : RandomSource) :
  generateUniqueNumbers fuel count min max rng = Some (res, rng') ->
  length res = Z.to_nat count
  /\ NoDup res
  /\ Sorted Z.lt res
  /\ (random_ok rng -> min <= max -> Forall (fun x => min <= x <= max) res).
Proof.
  intros H. pose proof H as Hrun. apply generateUniqueNumbers_run in Hrun.
  destruct Hrun as [n [s [_ [_ [Hs [Hres [Hnd [Hc Hz]]]]]]]].
  destruct (Array_sort_set s Hnd) as [Hsorted [Hnd' [Hlen Hin]]].
  rewrite <- Hres in *. repeat split; try assumption.
  - destruct (Z.le_gt_cases 0 count) as [H0 | H0].
    + rewrite Hlen. specialize (Hz H0). unfold JSSet.size in Hz. lia.
    + rewrite generateUniqueNumbers_no_iteration in H by lia.
      injection H as <- _. simpl. lia.
  - intros Hok Hle. apply Forall_forall. intros x Hx.
    apply Hin in Hx. subst s. apply JSSetFacts.add_all_In in Hx.
    destruct Hx as [[] | Hx].
    pose proof (samples_range rng min max n Hok Hle) as Hall.
    rewrite Forall_forall in Hall. now apply Hall.
Qed.

(** A set of integers of [min, max] has at most [max - min + 1] members. *)
Lemma interval_pigeonhole (min max : Z) (s : list Z) :
  NoDup s -> Forall (fun x => min <= x <= max) s ->
  Z.of_nat (length s) <= Z.max 0 (max - min + 1).
Proof.
  intros Hnd Hall.
  set (pool := map (fun k => min + Z.of_nat k) (seq 0 (Z.to_nat (max - min + 1)))).
  assert (Hincl : incl s pool).
  { intros x Hx. rewrite Forall_forall in Hall. specialize (Hall x Hx).
    apply in_map_iff. exists (Z.to_nat (x - min)). split; [lia|].
    apply in_seq. lia. }
  apply (NoDup_incl_length Hnd) in Hincl.
  unfold pool in Hincl. rewrite length_map, length_seq in Hincl. lia.
Qed.

(** With a pool smaller than [count] the loop is still running after any
    number of iterations. *)
Lemma generateUniqueNumbers_small_pool (fuel : nat) (count min max : Z)
      (rng : RandomSource) :
  random_ok rng -> min <= max -> max - min + 1 < count ->
  generateUniqueNumbers fuel count min max rng = None.
Proof.
  intros Hok Hle Hsmall.
  destruct (generateUniqueNumbers fuel count min max rng) as [[res rng']|] eqn:E;
    [exfalso | reflexivity].
  destruct (generateUniqueNumbers_result _ _ _ _ _ _ _ E) as [Hlen [Hnd [_ Hall]]].
  pose proof (interval_pigeonhole min max res Hnd (Hall Hok Hle)). lia.
Qed.

Lemma samples_In (rng : RandomSource) (min max : Z) (n : nat) (x : Z) :
  In x (samples rng min max n) <-> exists k, (k < n)%nat /\ sampleAt rng k min max = x.
Proof.
  unfold samples. rewrite in_map_iff. split.
  - intros [k [Hk Hin]]. apply in_seq in Hin. exists k. split; [lia | exact Hk].
  - intros [k [Hlt Hk]]. exists k. split; [exact Hk | apply in_seq; lia].
Qed.

(** Finitely many values that the sampler returns at some time have all been
    returned after some number of calls. *)
Lemma samples_cover (rng : RandomSource) (min max : Z) (l : list Z) :
  (forall x, In x l -> exists k, sampleAt rng k min max = x) ->
  exists n, incl l (samples rng min max n).
Proof.
  induction l as [|a l IH]; intros H.
  - exists 0%nat. intros x [].
  - destruct IH as [n Hn]; [intros x Hx; apply H; now right|].
    destruct (H a ltac:(now left)) as [k Hk].
    exists (Nat.max n (S k)). intros x [<- | Hx].
    + apply samples_In. exists k. split; [lia | exact Hk].
    + apply Hn, samples_In in Hx. destruct Hx as [j [Hj Hx]].
      apply samples_In. exists j. split; [lia | exact Hx].
Qed.

(** The call returns within [n] iterations exactly when the first [n] values
    of the sampler comprise [count] distinct values. *)
Lemma generateUniqueNumbers_returns_iff (n : nat) (count min max : Z)
      (rng : RandomSource) :
  (exists res rng', generateUniqueNumbers n count min max rng = Some (res, rng'))
  <-> count <= distinct (samples rng min max n).
Proof.
  split; [|apply generateUniqueNumbers_terminates].
  intros [res [rng' H]]. apply generateUniqueNumbers_run in H.
  destruct H as [m [s [Hm [_ [Hs [_ [Hnd [Hc _]]]]]]]].
  etransitivity; [exact Hc|]. unfold JSSet.size.
  rewrite <- distinct_NoDup by exact Hnd. apply distinct_incl.
  intros x Hx. subst s. apply JSSetFacts.add_all_In in Hx. destruct Hx as [[] | Hx].
  apply samples_In in Hx. destruct Hx as [k [Hk Hx]].
  apply samples_In. exists k. split; [lia | exact Hx].
Qed.

(** Each iteration adds one member at most: a set of [count] members takes
    [count] sampler calls at least. *)
Lemma add_all_size (l : list Z) (s : JSSet.t) :
  JSSet.size (add_all s l) <= JSSet.size s + Z.of_nat (length l).
Proof.
  revert s. induction l as [|x l IH]; intros s; simpl; [lia|].
  specialize (IH (JSSet.add x s)). pose proof (JSSetFacts.add_size x s).
  unfold add_all in *. lia.
Qed.

(** On a source that makes the sampler return every value of the pool at
    some time, the sampler has returned [count] distinct values after some
    number of calls, for every [count] up to the size of the pool. *)
Lemma fair_source_distinct (rng : RandomSource) (count min max : Z) :
  count <= max - min + 1 ->
  (forall x, min <= x <= max -> exists k, sampleAt rng k min max = x) ->
  exists n, count <= distinct (samples rng min max n).
Proof.
  intros Hpool Hfair.
  set (pool := map (fun k => min + Z.of_nat k) (seq 0 (Z.to_nat (max - min + 1)))).
  destruct (samples_cover rng min max pool) as [n Hn].
  { intros x Hx. apply Hfair. apply in_map_iff in Hx.
    destruct Hx as [k [<- Hk]]. apply in_seq in Hk. lia. }
  exists n. apply distinct_incl in Hn.
  rewrite distinct_NoDup in Hn.
  - unfold pool in Hn. rewrite length_map, length_seq in Hn. lia.
  - apply Injective_map_NoDup; [|apply seq_NoDup].
    intros a b Hab. lia.
Qed.

(** ** Sources used in the examples *)

Lemma cycling_source_ok (p : positive) : random_ok (cycling_source p).
Proof.
  intros n. simpl.
  pose proof (Z.mod_pos_bound (Z.of_nat n) (Zpos p) ltac:(lia)).
  unfold Qle, Qlt. simpl. lia.
Qed.

Lemma constant_source_ok (q : Q) :
  (0 <= q)%Q -> (q < 1)%Q -> random_ok (constant_source q).
Proof. intros H0 H1 n. simpl. now split. Qed.

Lemma replay_source_ok (l : list Q) :
  Forall (fun q => (0 <= q)%Q /\ (q < 1)%Q) l -> random_ok (replay_source l).
Proof.
  intros Hall n. simpl. destruct (nth_in_or_default n l 0%Q) as [Hin | ->].
  - rewrite Forall_forall in Hall. now apply Hall.
  - split; [apply Qle_refl | reflexivity].
Qed.

(** ** The ticket generators *)

Lemma Array_get_in_range (l : list Z) (i : Z) :
  0 <= i <= Z.of_nat (length l) - 1 ->
  exists m, Array_get l i = Some m /\ In m l.
Proof.
  intros Hi. unfold Array_get. destruct (Z.ltb_spec i 0); [lia|].
  destruct (nth_error l (Z.to_nat i)) as [m|] eqn:E.
  - exists m. split; [reflexivity | eapply nth_error_In; exact E].
  - apply nth_error_None in E. lia.
Qed.

Lemma generatePowerballTicket_eq (fuel : nat) (rng : RandomSource) :
  generatePowerballTicket fuel rng =
  match generateUniqueNumbers fuel 5 1 69 rng with
  | Some (numbers, rng') =>
      Some (mkPowerballTicket numbers (sampleAt rng' 0 1 26)
              (Array_get powerPlayOptions (sampleAt rng' 1 0 4)),
            advance 2 rng')
  | None => None
  end.
Proof.
  unfold generatePowerballTicket, bind.
  destruct (generateUniqueNumbers fuel 5 1 69 rng) as [[? ?]|]; reflexivity.
Qed.

Lemma generateMegaMillionsTicket_eq (fuel : nat) (rng : RandomSource) :
  generateMegaMillionsTicket fuel rng =
  match generateUniqueNumbers fuel 5 1 70 rng with
  | Some (numbers, rng') =>
      Some (mkMegaMillionsTicket numbers (sampleAt rng' 0 1 25)
              (Array_get megaplierOptions (sampleAt rng' 1 0 3)),
            advance 2 rng')
  | None => None
  end.
Proof.
  unfold generateMegaMillionsTicket, bind.
  destruct (generateUniqueNumbers fuel 5 1 70 rng) as [[? ?]|]; reflexivity.
Qed.

(** Inversion of a finished ticket generation into its three parts. *)
Lemma generatePowerballTicket_inv (fuel : nat) (rng : RandomSource)
      (t : PowerballTicket) (rng' : RandomSource) :
  generatePowerballTicket fuel rng = Some (t, rng') ->
  exists (n : nat),
    generateUniqueNumbers fuel 5 1 69 rng = Some (pb_numbers t, advance n rng)
    /\ powerball t = sampleAt rng n 1 26
    /\ powerPlay t = Array_get powerPlayOptions (sampleAt rng (S n) 0 4)
    /\ rng' = advance (2 + n) rng.
Proof.
  rewrite generatePowerballTicket_eq.
  destruct (generateUniqueNumbers fuel 5 1 69 rng) as [[numbers r]|] eqn:E;
    [|discriminate].
  intros H. injection H as <- <-.
  destruct (generateUniqueNumbers_run _ _ _ _ _ _ _ E) as [n [s [_ [-> _]]]].
  exists n. rewrite !sampleAt_advance, advance_advance. simpl. auto.
Qed.

Lemma generateMegaMillionsTicket_inv (fuel : nat) (rng : RandomSource)
      (t : MegaMillionsTicket) (rng' : RandomSource) :
  generateMegaMillionsTicket fuel rng = Some (t, rng') ->
  exists (n : nat),
    generateUniqueNumbers fuel 5 1 70 rng = Some (mm_numbers t, advance n rng)
    /\ megaBall t = sampleAt rng n 1 25
    /\ megaplier t = Array_get megaplierOptions (sampleAt rng (S n) 0 3)
    /\ rng' = advance (2 + n) rng.
Proof.
  rewrite generateMegaMillionsTicket_eq.
  destruct (generateUniqueNumbers fuel 5 1 70 rng) as [[numbers r]|] eqn:E;
    [|discriminate].
  intros H. injection H as <- <-.
  destruct (generateUniqueNumbers_run _ _ _ _ _ _ _ E) as [n [s [_ [-> _]]]].
  exists n. rewrite !sampleAt_advance, advance_advance. simpl. auto.
Qed.

(** * The properties of the specification *)

(** ** Number Sampler *)

(** C5.  For safe-integer bounds [min <= max], and [Math.random] in [0, 1),
    [getRandomNumber min max] returns, after one call of [Math.random], an
    integer of the inclusive range [min, max]; on the single-value range
    with [min = max = 5] it returns 5.  (The bounds are safe integers: beyond
    them a JavaScript number no longer holds every integer, and the
    arithmetic of the code is not the exact one of this development.) *)
Theorem getRandomNumber_within_bounds (min max : Z) (rng : RandomSource) :
  isSafeInteger min -> isSafeInteger max ->
  min <= max -> random_ok rng ->
  (exists x : Z,
      getRandomNumber min max rng = Some (x, advance 1 rng)
      /\ min <= x <= max)
  /\ getRandomNumber 5 5 rng = Some (5, advance 1 rng).
Proof.
  intros _ _ Hle Hok. split.
  - exists (sampleAt rng 0 min max). split; [apply getRandomNumber_run|].
    now apply sampleAt_range.
  - rewrite getRandomNumber_run. do 2 f_equal.
    pose proof (sampleAt_range rng 0 5 5 Hok ltac:(lia)). lia.
Qed.

Lemma getRandomNumber_within_bounds_witness :
  (exists x : Z,
      getRandomNumber 1 69 (constant_source (2 # 3))
      = Some (x, advance 1 (constant_source (2 # 3)))
      /\ 1 <= x <= 69)
  /\ getRandomNumber 5 5 (constant_source (2 # 3))
     = Some (5, advance 1 (constant_source (2 # 3))).
Proof.
  apply (getRandomNumber_within_bounds 1 69 (constant_source (2 # 3))).
  - unfold isSafeInteger, MAX_SAFE_INTEGER. lia.
  - unfold isSafeInteger, MAX_SAFE_INTEGER. lia.
  - lia.
  - apply constant_source_ok; [discriminate | reflexivity].
Defined.

(** ** Unique Set Generator *)

(** C3.  For safe-integer bounds [min <= max] with a pool of at least
    [count] values, and [Math.random] in [0, 1): a call of
    [generateUniqueNumbers] returns as soon as the sampler has produced
    [count] distinct values (and not before), which happens on every source
    that makes the sampler return each value of the pool at some time; and
    what a call returns is a sequence of exactly [count] pairwise distinct
    integers of [min, max] in ascending order.  (The bounds are safe
    integers, as for the sampler.) *)
Theorem generateUniqueNumbers_contract (count min max : Z) (rng : RandomSource) :
  isSafeInteger min -> isSafeInteger max ->
  min <= max -> count <= max - min + 1 -> random_ok rng ->
  (forall n : nat,
      (exists res rng', generateUniqueNumbers n count min max rng = Some (res, rng'))
      <-> count <= distinct (samples rng min max n))
  /\ ((forall x, min <= x <= max -> exists k, sampleAt rng k min max = x) ->
      exists fuel res rng',
        generateUniqueNumbers fuel count min max rng = Some (res, rng'))
  /\ (forall (fuel : nat) (res : list Z) (rng' : RandomSource),
         generateUniqueNumbers fuel count min max rng = Some (res, rng') ->
         length res = Z.to_nat count
         /\ NoDup res
         /\ Forall (fun x => min <= x <= max) res
         /\ Sorted Z.lt res).
Proof.
  intros _ _ Hle Hpool Hok. split; [|split].
  - intros n. apply generateUniqueNumbers_returns_iff.
  - intros Hfair.
    destruct (fair_source_distinct rng count min max Hpool Hfair) as [n Hn].
    exists n. now apply generateUniqueNumbers_terminates.
  - intros fuel res rng' H.
    destruct (generateUniqueNumbers_result _ _ _ _ _ _ _ H) as [Hlen [Hnd [Hs Hall]]].
    auto.
Qed.

Lemma generateUniqueNumbers_contract_witness :
  exists res rng',
    generateUniqueNumbers 5 5 1 69 (cycling_source 69) = Some (res, rng')
    /\ length res = 5%nat
    /\ NoDup res
    /\ Forall (fun x => 1 <= x <= 69) res
    /\ Sorted Z.lt res.
Proof.
  destruct (generateUniqueNumbers_contract 5 1 69 (cycling_source 69))
    as [Hreturns [_ Hresult]].
  - unfold isSafeInteger, MAX_SAFE_INTEGER. lia.
  - unfold isSafeInteger, MAX_SAFE_INTEGER. lia.
  - lia.
  - lia.
  - apply cycling_source_ok.
  - destruct (proj2 (Hreturns 5%nat)) as [res [rng' E]].
    + vm_compute. discriminate.
    + exists res, rng'. split; [exact E | exact (Hresult _ _ _ E)].
Defined.

(** C8.  For [count >= 0] and any source (no assumption on the values of
    [Math.random]): a call of [generateUniqueNumbers] that returns, returns
    exactly [count] elements, never more; an iteration adds one member to
    the set at most, so the call has made [count] sampler calls at least. *)
Theorem generateUniqueNumbers_exact_count
        (fuel : nat) (count min max : Z) (rng : RandomSource)
        (res : list Z) (rng' : RandomSource) :
  0 <= count ->
  generateUniqueNumbers fuel count min max rng = Some (res, rng') ->
  Z.of_nat (length res) = count
  /\ exists n : nat, rng' = advance n rng /\ count <= Z.of_nat n.
Proof.
  intros H0 H.
  destruct (generateUniqueNumbers_result _ _ _ _ _ _ _ H) as [Hlen _].
  split; [lia|].
  apply generateUniqueNumbers_run in H.
  destruct H as [n [s [_ [Hr [Hs [_ [_ [Hc _]]]]]]]].
  exists n. split; [exact Hr|].
  pose proof (add_all_size (samples rng min max n) JSSet.empty) as Hsize.
  rewrite <- Hs, samples_length in Hsize. change (JSSet.size JSSet.empty) with 0 in Hsize.
  lia.
Qed.

Lemma generateUniqueNumbers_exact_count_witness :
  generateUniqueNumbers 4 3 1 3 (replay_source [2 # 3; 2 # 3; 0; 1 # 3]%Q)
  = Some ([1; 2; 3], advance 4 (replay_source [2 # 3; 2 # 3; 0; 1 # 3]%Q))
  /\ Z.of_nat (length [1; 2; 3]) = 3
  /\ exists n : nat,
      advance 4 (replay_source [2 # 3; 2 # 3; 0; 1 # 3]%Q)
      = advance n (replay_source [2 # 3; 2 # 3; 0; 1 # 3]%Q)
      /\ 3 <= Z.of_nat n.
Proof.
  assert (E : generateUniqueNumbers 4 3 1 3 (replay_source [2 # 3; 2 # 3; 0; 1 # 3]%Q)
              = Some ([1; 2; 3], advance 4 (replay_source [2 # 3; 2 # 3; 0; 1 # 3]%Q)))
    by reflexivity.
  split; [exact E|].
  apply (generateUniqueNumbers_exact_count 4 3 1 3 _ _ _ ltac:(lia) E).
Defined.

(** C9.  For [count <= 0] and any bounds, [generateUniqueNumbers] returns the
    empty sequence and leaves the source where it was: [Math.random] is not
    called.  No iteration of the loop is needed: the call returns whatever
    the bound on the iterations is. *)
Theorem generateUniqueNumbers_nonpositive_count
        (fuel : nat) (count min max : Z) (rng : RandomSource) :
  count <= 0 ->
  generateUniqueNumbers fuel count min max rng = Some ([], rng).
Proof. apply generateUniqueNumbers_no_iteration. Qed.

Lemma generateUniqueNumbers_nonpositive_count_witness :
  generateUniqueNumbers 0 0 1 69 (cycling_source 69) = Some ([], cycling_source 69)
  /\ generateUniqueNumbers 0 (-3) 9 2 (cycling_source 69) = Some ([], cycling_source 69).
Proof.
  split.
  - apply (generateUniqueNumbers_nonpositive_count 0 0 1 69 (cycling_source 69)). lia.
  - apply (generateUniqueNumbers_nonpositive_count 0 (-3) 9 2 (cycling_source 69)). lia.
Defined.

(** C4 as the specification has it does not hold of the code: on the call
    [generateUniqueNumbers(2, 1, 1)], with [Math.random] returning 0 at each
    call, the code makes no check and the loop is still running after any
    number of iterations; nothing is returned and nothing is thrown. *)
Lemma generateUniqueNumbers_no_parameter_check :
  never_returns (fun fuel => generateUniqueNumbers fuel 2 1 1) (constant_source 0).
Proof.
  intros fuel. apply generateUniqueNumbers_small_pool; [|lia|lia].
  apply constant_source_ok; [discriminate | reflexivity].
Qed.

(** C4, amended.  Called with [min <= max] and a [count] that exceeds the
    size [max - min + 1] of the pool, [generateUniqueNumbers] checks nothing
    and never returns: with [Math.random] in [0, 1) the loop is still
    running after any number of iterations. *)
Theorem generateUniqueNumbers_oversized_count_loops
        (count min max : Z) (rng : RandomSource) :
  min <= max -> max - min + 1 < count -> random_ok rng ->
  never_returns (fun fuel => generateUniqueNumbers fuel count min max) rng.
Proof.
  intros Hle Hsmall Hok fuel. now apply generateUniqueNumbers_small_pool.
Qed.

Lemma generateUniqueNumbers_oversized_count_loops_witness :
  never_returns (fun fuel => generateUniqueNumbers fuel 70 1 69) (cycling_source 69).
Proof.
  apply (generateUniqueNumbers_oversized_count_loops 70 1 69 (cycling_source 69)).
  - lia.
  - lia.
  - apply cycling_source_ok.
Defined.

(** ** Ticket Assemblers *)

(** C1.  With [Math.random] in [0, 1): a call of [generatePowerballTicket]
    returns as soon as the sampler has produced 5 distinct values for the
    white balls (and not before), and the ticket a call returns has exactly 5 numbers,
    strictly ascending, each in [1, 69], a [powerball] in [1, 26] and a
    [powerPlay] that is one of 2, 3, 4, 5, 10. *)
Theorem generatePowerballTicket_valid (rng : RandomSource) :
  random_ok rng ->
  (forall n : nat,
      (exists t rng', generatePowerballTicket n rng = Some (t, rng'))
      <-> 5 <= distinct (samples rng 1 69 n))
  /\ (forall (fuel : nat) (t : PowerballTicket) (rng' : RandomSource),
         generatePowerballTicket fuel rng = Some (t, rng') ->
         length (pb_numbers t) = 5%nat
         /\ Sorted Z.lt (pb_numbers t)
         /\ Forall (fun x => 1 <= x <= 69) (pb_numbers t)
         /\ 1 <= powerball t <= 26
         /\ exists m, powerPlay t = Some m /\ In m [2; 3; 4; 5; 10]).
Proof.
  intros Hok. split.
  - intros n. rewrite <- generateUniqueNumbers_returns_iff.
    setoid_rewrite generatePowerballTicket_eq.
    destruct (generateUniqueNumbers n 5 1 69 rng) as [[numbers r]|].
    + split; eauto.
    + split; intros [? [? ?]]; discriminate.
  - intros fuel t rng' H.
    destruct (generatePowerballTicket_inv _ _ _ _ H) as [n [E [Hpb [Hpp _]]]].
    destruct (generateUniqueNumbers_result _ _ _ _ _ _ _ E) as [Hlen [_ [Hs Hall]]].
    repeat split; try assumption.
    + apply Hall; [exact Hok | lia].
    + rewrite Hpb. apply sampleAt_range; [exact Hok | lia].
    + rewrite Hpb. apply sampleAt_range; [exact Hok | lia].
    + rewrite Hpp. apply Array_get_in_range.
      pose proof (sampleAt_range rng (S n) 0 4 Hok ltac:(lia)). simpl. lia.
Qed.

Lemma generatePowerballTicket_valid_witness :
  exists t rng',
    generatePowerballTicket 5 (cycling_source 69) = Some (t, rng')
    /\ length (pb_numbers t) = 5%nat
    /\ Sorted Z.lt (pb_numbers t)
    /\ Forall (fun x => 1 <= x <= 69) (pb_numbers t)
    /\ 1 <= powerball t <= 26
    /\ exists m, powerPlay t = Some m /\ In m [2; 3; 4; 5; 10].
Proof.
  destruct (generatePowerballTicket_valid (cycling_source 69)) as [Hreturns Hticket].
  - apply cycling_source_ok.
  - destruct (proj2 (Hreturns 5%nat)) as [t [rng' E]].
    + vm_compute. discriminate.
    + exists t, rng'. split; [exact E | exact (Hticket _ _ _ E)].
Defined.

(** C2.  With [Math.random] in [0, 1): a call of
    [generateMegaMillionsTicket] returns as soon as the sampler has produced
    5 distinct values for the white balls (and not before), and the ticket a call returns has
    exactly 5 numbers, strictly ascending, each in [1, 70], a [megaBall] in
    [1, 25] and a [megaplier] that is one of 2, 3, 4, 5. *)
Theorem generateMegaMillionsTicket_valid (rng : RandomSource) :
  random_ok rng ->
  (forall n : nat,
      (exists t rng', generateMegaMillionsTicket n rng = Some (t, rng'))
      <-> 5 <= distinct (samples rng 1 70 n))
  /\ (forall (fuel : nat) (t : MegaMillionsTicket) (rng' : RandomSource),
         generateMegaMillionsTicket fuel rng = Some (t, rng') ->
         length (mm_numbers t) = 5%nat
         /\ Sorted Z.lt (mm_numbers t)
         /\ Forall (fun x => 1 <= x <= 70) (mm_numbers t)
         /\ 1 <= megaBall t <= 25
         /\ exists m, megaplier t = Some m /\ In m [2; 3; 4; 5]).
Proof.
  intros Hok. split.
  - intros n. rewrite <- generateUniqueNumbers_returns_iff.
    setoid_rewrite generateMegaMillionsTicket_eq.
    destruct (generateUniqueNumbers n 5 1 70 rng) as [[numbers r]|].
    + split; eauto.
    + split; intros [? [? ?]]; discriminate.
  - intros fuel t rng' H.
    destruct (generateMegaMillionsTicket_inv _ _ _ _ H) as [n [E [Hmb [Hmp _]]]].
    destruct (generateUniqueNumbers_result _ _ _ _ _ _ _ E) as [Hlen [_ [Hs Hall]]].
    repeat split; try assumption.
    + apply Hall; [exact Hok | lia].
    + rewrite Hmb. apply sampleAt_range; [exact Hok | lia].
    + rewrite Hmb. apply sampleAt_range; [exact Hok | lia].
    + rewrite Hmp. apply Array_get_in_range.
      pose proof (sampleAt_range rng (S n) 0 3 Hok ltac:(lia)). simpl. lia.
Qed.

Lemma generateMegaMillionsTicket_valid_witness :
  exists t rng',
    generateMegaMillionsTicket 5 (cycling_source 70) = Some (t, rng')
    /\ length (mm_numbers t) = 5%nat
    /\ Sorted Z.lt (mm_numbers t)
    /\ Forall (fun x => 1 <= x <= 70) (mm_numbers t)
    /\ 1 <= megaBall t <= 25
    /\ exists m, megaplier t = Some m /\ In m [2; 3; 4; 5].
Proof.
  destruct (generateMegaMillionsTicket_valid (cycling_source 70)) as [Hreturns Hticket].
  - apply cycling_source_ok.
  - destruct (proj2 (Hreturns 5%nat)) as [t [rng' E]].
    + vm_compute. discriminate.
    + exists t, rng'. split; [exact E | exact (Hticket _ _ _ E)].
Defined.

(** C10.  Assuming the sampler respects its bounds ([Math.random] in
    [0, 1)), the index at which each ticket generator reads its option list
    lies between 0 and the length of the list minus 1: the read is inside
    the array, it yields an element of the list and never [undefined]. *)
Theorem multiplier_index_in_range (rng : RandomSource) :
  random_ok rng ->
  (forall (fuel : nat) (t : PowerballTicket) (rng' : RandomSource),
      generatePowerballTicket fuel rng = Some (t, rng') ->
      exists i m,
        0 <= i <= Z.of_nat (length powerPlayOptions) - 1
        /\ powerPlay t = Array_get powerPlayOptions i
        /\ Array_get powerPlayOptions i = Some m
        /\ In m powerPlayOptions)
  /\ (forall (fuel : nat) (t : MegaMillionsTicket) (rng' : RandomSource),
         generateMegaMillionsTicket fuel rng = Some (t, rng') ->
         exists i m,
           0 <= i <= Z.of_nat (length megaplierOptions) - 1
           /\ megaplier t = Array_get megaplierOptions i
           /\ Array_get megaplierOptions i = Some m
           /\ In m megaplierOptions).
Proof.
  intros Hok. split; intros fuel t rng' H.
  - destruct (generatePowerballTicket_inv _ _ _ _ H) as [n [_ [_ [Hpp _]]]].
    pose proof (sampleAt_range rng (S n) 0 4 Hok ltac:(lia)) as Hi.
    destruct (Array_get_in_range powerPlayOptions (sampleAt rng (S n) 0 4))
      as [m [Hm Hin]]; [simpl; lia|].
    exists (sampleAt rng (S n) 0 4), m. simpl length. repeat split; (lia || assumption).
  - destruct (generateMegaMillionsTicket_inv _ _ _ _ H) as [n [_ [_ [Hmp _]]]].
    pose proof (sampleAt_range rng (S n) 0 3 Hok ltac:(lia)) as Hi.
    destruct (Array_get_in_range megaplierOptions (sampleAt rng (S n) 0 3))
      as [m [Hm Hin]]; [simpl; lia|].
    exists (sampleAt rng (S n) 0 3), m. simpl length. repeat split; (lia || assumption).
Qed.

Lemma multiplier_index_in_range_witness :
  exists t rng' i m,
    generatePowerballTicket 5 (cycling_source 69) = Some (t, rng')
    /\ 0 <= i <= Z.of_nat (length powerPlayOptions) - 1
    /\ powerPlay t = Array_get powerPlayOptions i
    /\ Array_get powerPlayOptions i = Some m
    /\ In m powerPlayOptions.
Proof.
  destruct (multiplier_index_in_range (cycling_source 69)) as [Hpb _].
  - apply cycling_source_ok.
  - destruct (generatePowerballTicket 5 (cycling_source 69)) as [[t rng']|] eqn:E.
    + destruct (Hpb _ _ _ E) as [i [m Him]].
      exists t, rng', i, m. split; [reflexivity | exact Him].
    + vm_compute in E. discriminate.
Defined.

(** ** Fixed randomness *)

Ltac loop_step :=
  rewrite unique_loop_eq, ?sampleAt_advance;
  cbn -[unique_loop sampleAt advance].

(** C6.  When the successive calls of the sampler return 5, 12, 23, 45, 67
    (the five draws of the white balls), then 15 (the Powerball), then 3
    (the index of the multiplier), [generatePowerballTicket] returns the
    ticket with numbers [5, 12, 23, 45, 67], powerball 15 and powerPlay 5,
    after seven calls of [Math.random]; five iterations of the loop are
    needed. *)
Theorem generatePowerballTicket_fixed_sequence (fuel : nat) (rng : RandomSource) :
  (5 <= fuel)%nat ->
  sampler_trace rng 0 [(1, 69); (1, 69); (1, 69); (1, 69); (1, 69); (1, 26); (0, 4)]
  = [5; 12; 23; 45; 67; 15; 3] ->
  generatePowerballTicket fuel rng
  = Some (mkPowerballTicket [5; 12; 23; 45; 67] 15 (Some 5), advance 7 rng).
Proof.
  intros Hfuel Htrace. cbn [sampler_trace] in Htrace.
  injection Htrace as H0 H1 H2 H3 H4 H5 H6.
  assert (E : generateUniqueNumbers 5 5 1 69 rng
              = Some ([5; 12; 23; 45; 67], advance 5 rng)).
  { rewrite generateUniqueNumbers_eq.
    loop_step. rewrite H0. loop_step. rewrite H1. loop_step. rewrite H2.
    loop_step. rewrite H3. loop_step. rewrite H4. loop_step.
    rewrite !advance_advance. reflexivity. }
  rewrite generatePowerballTicket_eq.
  rewrite (generateUniqueNumbers_fuel 5 fuel _ _ _ _ _ Hfuel E).
  rewrite !sampleAt_advance, advance_advance. cbn [Nat.add].
  now rewrite H5, H6.
Qed.

Lemma generatePowerballTicket_fixed_sequence_witness :
  generatePowerballTicket 5
    (replay_source [4 # 69; 11 # 69; 22 # 69; 44 # 69; 66 # 69; 14 # 26; 3 # 5]%Q)
  = Some (mkPowerballTicket [5; 12; 23; 45; 67] 15 (Some 5),
          advance 7
            (replay_source [4 # 69; 11 # 69; 22 # 69; 44 # 69; 66 # 69; 14 # 26; 3 # 5]%Q)).
Proof.
  apply (generatePowerballTicket_fixed_sequence 5
           (replay_source [4 # 69; 11 # 69; 22 # 69; 44 # 69; 66 # 69; 14 # 26; 3 # 5]%Q)).
  - lia.
  - reflexivity.
Defined.

Lemma generatePowerballTicket_fuel (fuel fuel' : nat) (rng : RandomSource)
      (r : PowerballTicket * RandomSource) :
  (fuel <= fuel')%nat ->
  generatePowerballTicket fuel rng = Some r ->
  generatePowerballTicket fuel' rng = Some r.
Proof.
  intros Hle. rewrite !generatePowerballTicket_eq.
  destruct (generateUniqueNumbers fuel 5 1 69 rng) as [p|] eqn:E; [|discriminate].
  now rewrite (generateUniqueNumbers_fuel _ _ _ _ _ _ _ Hle E).
Qed.

Lemma generateMegaMillionsTicket_fuel (fuel fuel' : nat) (rng : RandomSource)
      (r : MegaMillionsTicket * RandomSource) :
  (fuel <= fuel')%nat ->
  generateMegaMillionsTicket fuel rng = Some r ->
  generateMegaMillionsTicket fuel' rng = Some r.
Proof.
  intros Hle. rewrite !generateMegaMillionsTicket_eq.
  destruct (generateUniqueNumbers fuel 5 1 70 rng) as [p|] eqn:E; [|discriminate].
  now rewrite (generateUniqueNumbers_fuel _ _ _ _ _ _ _ Hle E).
Qed.

Lemma generateUniqueNumbers_trace (fuel fuel2 : nat) (count min max : Z)
      (rng1 rng2 : RandomSource) (res : list Z) (n : nat) :
  generateUniqueNumbers fuel count min max rng1 = Some (res, advance n rng1) ->
  samples rng2 min max n = samples rng1 min max n ->
  (n <= fuel2)%nat ->
  generateUniqueNumbers fuel2 count min max rng2 = Some (res, advance n rng2).
Proof.
  rewrite !generateUniqueNumbers_eq.
  destruct (unique_loop fuel count min max JSSet.empty rng1) as [[s r]|] eqn:E;
    [|discriminate].
  intros H Hsame Hfuel. injection H as <- ->.
  now rewrite (unique_loop_trace count min max fuel _ rng1 rng2 s n fuel2 E Hsame Hfuel).
Qed.

Lemma sampler_trace_app (rng : RandomSource) (l1 l2 : list (Z * Z)) (k : nat) :
  sampler_trace rng k (l1 ++ l2)
  = sampler_trace rng k l1 ++ sampler_trace rng (k + length l1) l2.
Proof.
  revert k. induction l1 as [|[lo hi] l1 IH]; intros k; simpl.
  - now rewrite Nat.add_0_r.
  - rewrite IH. do 3 f_equal. lia.
Qed.

Lemma sampler_trace_repeat (rng : RandomSource) (min max : Z) (n k : nat) :
  sampler_trace rng k (repeat (min, max) n)
  = map (fun j => sampleAt rng j min max) (seq k n).
Proof.
  revert k. induction n as [|n IH]; intros k; simpl; [reflexivity|].
  now rewrite IH.
Qed.

(** The trace of a ticket generation: the white-ball draws, then the two
    last calls. *)
Lemma ticket_calls_trace (rng : RandomSource) (pool special last : Z) (n : nat) :
  sampler_trace rng 0 (repeat (1, pool) n ++ [(1, special); (0, last)])
  = samples rng 1 pool n ++ [sampleAt rng n 1 special; sampleAt rng (S n) 0 last].
Proof.
  rewrite sampler_trace_app, sampler_trace_repeat, repeat_length. reflexivity.
Qed.

Lemma ticket_traces_equal (rng1 rng2 : RandomSource) (pool special last : Z) (n : nat) :
  sampler_trace rng2 0 (repeat (1, pool) n ++ [(1, special); (0, last)])
  = sampler_trace rng1 0 (repeat (1, pool) n ++ [(1, special); (0, last)]) ->
  samples rng2 1 pool n = samples rng1 1 pool n
  /\ sampleAt rng2 n 1 special = sampleAt rng1 n 1 special
  /\ sampleAt rng2 (S n) 0 last = sampleAt rng1 (S n) 0 last.
Proof.
  rewrite !ticket_calls_trace. intros H.
  apply app_eq_app in H. destruct H as [l [[H1 H2] | [H1 H2]]].
  - assert (l = []) as ->.
    { apply (f_equal (@length Z)) in H1.
      rewrite length_app, !samples_length in H1. destruct l; [reflexivity | simpl in H1; lia]. }
    rewrite app_nil_r in H1. simpl in H2. injection H2 as H2 H3. auto.
  - assert (l = []) as ->.
    { apply (f_equal (@length Z)) in H1.
      rewrite length_app, !samples_length in H1. destruct l; [reflexivity | simpl in H1; lia]. }
    rewrite app_nil_r in H1. simpl in H2. injection H2 as H2 H3. auto.
Qed.

Lemma generatePowerballTicket_trace (fuel fuel2 : nat) (rng1 rng2 : RandomSource)
      (t : PowerballTicket) (n : nat) :
  generatePowerballTicket fuel rng1 = Some (t, advance (n + 2) rng1) ->
  sampler_trace rng2 0 (powerball_calls n) = sampler_trace rng1 0 (powerball_calls n) ->
  (n <= fuel2)%nat ->
  generatePowerballTicket fuel2 rng2 = Some (t, advance (n + 2) rng2).
Proof.
  intros H Htrace Hfuel.
  apply ticket_traces_equal in Htrace. destruct Htrace as [Hnum [Hsp Hidx]].
  destruct (generatePowerballTicket_inv _ _ _ _ H) as [m [E [Hpb [Hpp Hr]]]].
  apply advance_inj in Hr. assert (m = n) by lia. subst m.
  rewrite generatePowerballTicket_eq.
  rewrite (generateUniqueNumbers_trace _ fuel2 _ _ _ _ rng2 _ _ E Hnum Hfuel).
  rewrite !sampleAt_advance, advance_advance. simpl Nat.add.
  rewrite Hsp, Hidx, <- Hpb, <- Hpp.
  destruct t; simpl. do 2 f_equal. unfold advance. f_equal. lia.
Qed.

Lemma generateMegaMillionsTicket_trace (fuel fuel2 : nat) (rng1 rng2 : RandomSource)
      (t : MegaMillionsTicket) (n : nat) :
  generateMegaMillionsTicket fuel rng1 = Some (t, advance (n + 2) rng1) ->
  sampler_trace rng2 0 (megamillions_calls n)
  = sampler_trace rng1 0 (megamillions_calls n) ->
  (n <= fuel2)%nat ->
  generateMegaMillionsTicket fuel2 rng2 = Some (t, advance (n + 2) rng2).
Proof.
  intros H Htrace Hfuel.
  apply ticket_traces_equal in Htrace. destruct Htrace as [Hnum [Hsp Hidx]].
  destruct (generateMegaMillionsTicket_inv _ _ _ _ H) as [m [E [Hmb [Hmp Hr]]]].
  apply advance_inj in Hr. assert (m = n) by lia. subst m.
  rewrite generateMegaMillionsTicket_eq.
  rewrite (generateUniqueNumbers_trace _ fuel2 _ _ _ _ rng2 _ _ E Hnum Hfuel).
  rewrite !sampleAt_advance, advance_advance. simpl Nat.add.
  rewrite Hsp, Hidx, <- Hmb, <- Hmp.
  destruct t; simpl. do 2 f_equal. unfold advance. f_equal. lia.
Qed.

(** C7.  The unique-number generator and both ticket generators depend on
    the source through the values of the sampler calls they make: a run
    that returns has consumed some number of sampler outputs, and every run
    supplied with the same sequence of sampler outputs returns the same
    output, after the same number of calls; no run on it returns anything
    else. *)
Theorem deterministic_in_sampler_outputs (rng1 : RandomSource) :
  (forall (count min max : Z) (fuel : nat) (res : list Z) (rng1' : RandomSource),
      generateUniqueNumbers fuel count min max rng1 = Some (res, rng1') ->
      exists n : nat,
        rng1' = advance n rng1
        /\ forall rng2 : RandomSource,
            samples rng2 min max n = samples rng1 min max n ->
            (forall fuel2, (n <= fuel2)%nat ->
               generateUniqueNumbers fuel2 count min max rng2
               = Some (res, advance n rng2))
            /\ (forall fuel2 res2 rng2',
                   generateUniqueNumbers fuel2 count min max rng2 = Some (res2, rng2') ->
                   res2 = res))
  /\ (forall (fuel : nat) (t : PowerballTicket) (rng1' : RandomSource),
         generatePowerballTicket fuel rng1 = Some (t, rng1') ->
         exists n : nat,
           rng1' = advance (n + 2) rng1
           /\ forall rng2 : RandomSource,
               sampler_trace rng2 0 (powerball_calls n)
               = sampler_trace rng1 0 (powerball_calls n) ->
               (forall fuel2, (n <= fuel2)%nat ->
                  generatePowerballTicket fuel2 rng2 = Some (t, advance (n + 2) rng2))
               /\ (forall fuel2 t2 rng2',
                      generatePowerballTicket fuel2 rng2 = Some (t2, rng2') ->
                      t2 = t))
  /\ (forall (fuel : nat) (t : MegaMillionsTicket) (rng1' : RandomSource),
         generateMegaMillionsTicket fuel rng1 = Some (t, rng1') ->
         exists n : nat,
           rng1' = advance (n + 2) rng1
           /\ forall rng2 : RandomSource,
               sampler_trace rng2 0 (megamillions_calls n)
               = sampler_trace rng1 0 (megamillions_calls n) ->
               (forall fuel2, (n <= fuel2)%nat ->
                  generateMegaMillionsTicket fuel2 rng2 = Some (t, advance (n + 2) rng2))
               /\ (forall fuel2 t2 rng2',
                      generateMegaMillionsTicket fuel2 rng2 = Some (t2, rng2') ->
                      t2 = t)).
Proof.
  split; [|split].
  - intros count min max fuel res rng1' H.
    destruct (generateUniqueNumbers_run _ _ _ _ _ _ _ H) as [n [_ [_ [-> _]]]].
    exists n. split; [reflexivity|]. intros rng2 Hsame.
    assert (Hall : forall fuel2, (n <= fuel2)%nat ->
                     generateUniqueNumbers fuel2 count min max rng2
                     = Some (res, advance n rng2)).
    { intros fuel2 Hfuel. exact (generateUniqueNumbers_trace _ _ _ _ _ _ _ _ _ H Hsame Hfuel). }
    split; [exact Hall|]. intros fuel2 res2 rng2' H2.
    apply (generateUniqueNumbers_fuel fuel2 (Nat.max n fuel2)) in H2; [|lia].
    rewrite (Hall (Nat.max n fuel2)) in H2 by lia. now injection H2 as <- _.
  - intros fuel t rng1' H.
    destruct (generatePowerballTicket_inv _ _ _ _ H) as [n [_ [_ [_ ->]]]].
    exists n. replace (2 + n)%nat with (n + 2)%nat in * by lia.
    split; [reflexivity|]. intros rng2 Hsame.
    assert (Hall : forall fuel2, (n <= fuel2)%nat ->
                     generatePowerballTicket fuel2 rng2 = Some (t, advance (n + 2) rng2)).
    { intros fuel2 Hfuel. exact (generatePowerballTicket_trace _ _ _ _ _ _ H Hsame Hfuel). }
    split; [exact Hall|]. intros fuel2 t2 rng2' H2.
    apply (generatePowerballTicket_fuel fuel2 (Nat.max n fuel2)) in H2; [|lia].
    rewrite (Hall (Nat.max n fuel2)) in H2 by lia. now injection H2 as <- _.
  - intros fuel t rng1' H.
    destruct (generateMegaMillionsTicket_inv _ _ _ _ H) as [n [_ [_ [_ ->]]]].
    exists n. replace (2 + n)%nat with (n + 2)%nat in * by lia.
    split; [reflexivity|]. intros rng2 Hsame.
    assert (Hall : forall fuel2, (n <= fuel2)%nat ->
                     generateMegaMillionsTicket fuel2 rng2
                     = Some (t, advance (n + 2) rng2)).
    { intros fuel2 Hfuel. exact (generateMegaMillionsTicket_trace _ _ _ _ _ _ H Hsame Hfuel). }
    split; [exact Hall|]. intros fuel2 t2 rng2' H2.
    apply (generateMegaMillionsTicket_fuel fuel2 (Nat.max n fuel2)) in H2; [|lia].
    rewrite (Hall (Nat.max n fuel2)) in H2 by lia. now injection H2 as <- _.
Qed.

(** Two sources with different values of [Math.random] and the same eight
    sampler outputs 5, 12, 12, 23, 45, 67, 15, 3, which differ under other
    bounds: both runs return the ticket of these outputs. *)
Lemma deterministic_in_sampler_outputs_witness :
  sampler_trace powerball_source_b 0 (powerball_calls 6)
  = sampler_trace powerball_source_a 0 (powerball_calls 6)
  /\ sampleAt powerball_source_b 5 1 26 <> sampleAt powerball_source_a 5 1 26
  /\ generatePowerballTicket 6 powerball_source_a
     = Some (mkPowerballTicket [5; 12; 23; 45; 67] 15 (Some 5),
             advance 8 powerball_source_a)
  /\ generatePowerballTicket 9 powerball_source_b
     = Some (mkPowerballTicket [5; 12; 23; 45; 67] 15 (Some 5),
             advance 8 powerball_source_b).
Proof.
  assert (Ea : generatePowerballTicket 6 powerball_source_a
               = Some (mkPowerballTicket [5; 12; 23; 45; 67] 15 (Some 5),
                       advance 8 powerball_source_a)) by reflexivity.
  split; [reflexivity|]. split; [vm_compute; discriminate|]. split; [exact Ea|].
  destruct (deterministic_in_sampler_outputs powerball_source_a) as [_ [Hpb _]].
  destruct (Hpb _ _ _ Ea) as [n [Hn Hsame]].
  apply advance_inj in Hn. assert (n = 6%nat) by lia. subst n.
  destruct (Hsame powerball_source_b) as [Hall _]; [reflexivity|].
  apply Hall. lia.
Defined.

(** * Further properties of the module *)

(** ** The sampler *)

Lemma floor_fraction (a n : Z) (b : positive) :
  Math_floor ((a # b) * inject_Z n) = (a * n) / Zpos b.
Proof.
  unfold Math_floor, Qfloor, Qmult, inject_Z. simpl. now rewrite Pos.mul_1_r.
Qed.

(** X2.  The sampler does not reject bounds in the wrong order: for safe
    integers [max < min] it returns a value from [max + 1] to [min]; with
    [max = min - 1] it returns [min]. *)
Theorem getRandomNumber_swapped_bounds (min max : Z) (rng : RandomSource) :
  isSafeInteger min -> isSafeInteger max ->
  max < min -> random_ok rng ->
  exists x : Z,
    getRandomNumber min max rng = Some (x, advance 1 rng)
    /\ max + 1 <= x <= min.
Proof.
  intros _ _ Hlt Hok. exists (sampleAt rng 0 min max).
  split; [apply getRandomNumber_run|].
  unfold sampleAt. destruct (Hok (0 + consumed rng)%nat) as [H0 H1].
  destruct (outputs rng (0 + consumed rng)%nat) as [a b].
  rewrite floor_fraction. unfold Qle, Qlt in H0, H1. simpl in H0, H1.
  set (n := max - min + 1) in *.
  pose proof (Z.mul_div_le (a * n) (Zpos b) ltac:(lia)).
  pose proof (Z.mul_succ_div_gt (a * n) (Zpos b) ltac:(lia)).
  assert (n <= 0) by (unfold n; lia).
  assert (a * n <= 0) by nia.
  assert (Zpos b * n <= a * n) by nia.
  assert (a * n / Zpos b <= 0) by nia.
  assert (n <= a * n / Zpos b) by nia.
  unfold n in *. lia.
Qed.

Lemma getRandomNumber_swapped_bounds_witness :
  exists x : Z,
    getRandomNumber 5 1 (constant_source (2 # 3))
    = Some (x, advance 1 (constant_source (2 # 3)))
    /\ 1 + 1 <= x <= 5.
Proof.
  apply (getRandomNumber_swapped_bounds 5 1 (constant_source (2 # 3))).
  - unfold isSafeInteger, MAX_SAFE_INTEGER. lia.
  - unfold isSafeInteger, MAX_SAFE_INTEGER. lia.
  - lia.
  - apply constant_source_ok; [discriminate | reflexivity].
Defined.

(** ** generateUniqueNumbers *)

Lemma samples_incl (rng : RandomSource) (min max : Z) (m n : nat) :
  (m <= n)%nat -> incl (samples rng min max m) (samples rng min max n).
Proof.
  intros Hle x Hx. apply samples_In in Hx. destruct Hx as [k [Hk Hx]].
  apply samples_In. exists k. split; [lia | exact Hx].
Qed.

(** X3.  A call of [generateUniqueNumbers] that returns has made the least
    number [n] of sampler calls that gives [count] distinct values: fewer
    calls give fewer distinct values.  The array returned holds exactly the
    values of these [n] calls. *)
Theorem generateUniqueNumbers_stops_at_first
        (fuel : nat) (count min max : Z) (rng : RandomSource)
        (res : list Z) (rng' : RandomSource) :
  generateUniqueNumbers fuel count min max rng = Some (res, rng') ->
  exists n : nat,
    rng' = advance n rng
    /\ (forall x, In x res <-> In x (samples rng min max n))
    /\ distinct (samples rng min max n) = Z.max 0 count
    /\ (forall m, (m < n)%nat -> distinct (samples rng min max m) < count).
Proof.
  intros H. pose proof H as Hrun. apply generateUniqueNumbers_run in Hrun.
  destruct Hrun as [n [s [Hn [Hr [Hs [Hres [Hnd [Hc Hz]]]]]]]].
  destruct (Array_sort_set s Hnd) as [_ [_ [_ Hin]]].
  assert (Hmem : forall x, In x s <-> In x (samples rng min max n)).
  { intros x. subst s. rewrite JSSetFacts.add_all_In. simpl. tauto. }
  exists n. split; [exact Hr|]. split; [|split].
  - intros x. rewrite Hres, Hin. apply Hmem.
  - destruct (Z.le_gt_cases 0 count) as [H0 | H0].
    + specialize (Hz H0). unfold JSSet.size in Hz.
      rewrite <- (distinct_NoDup s Hnd) in Hz.
      assert (distinct s <= distinct (samples rng min max n))
        by (apply distinct_incl; intros x; apply Hmem).
      assert (distinct (samples rng min max n) <= distinct s)
        by (apply distinct_incl; intros x; apply Hmem).
      lia.
    + rewrite generateUniqueNumbers_no_iteration in H by lia.
      injection H as _ Hrng. rewrite <- Hrng in Hr.
      rewrite <- (advance_0 rng) in Hr at 1. apply advance_inj in Hr. subst n.
      unfold distinct, samples. simpl. lia.
  - intros m Hm. apply Z.lt_nge. intros Hm'.
    destruct (generateUniqueNumbers_terminates m count min max rng Hm')
      as [res2 [rng2 H2]].
    pose proof H2 as Hrun2. apply generateUniqueNumbers_run in Hrun2.
    destruct Hrun2 as [m' [_ [Hm'le [Hr2 _]]]].
    apply (generateUniqueNumbers_fuel m (Nat.max m fuel)) in H2; [|lia].
    apply (generateUniqueNumbers_fuel fuel (Nat.max m fuel)) in H; [|lia].
    rewrite H in H2. injection H2 as _ Heq.
    rewrite Hr, Hr2 in Heq. apply advance_inj in Heq. lia.
Qed.

Lemma generateUniqueNumbers_stops_at_first_witness :
  exists n : nat,
    advance 4 (replay_source [2 # 3; 2 # 3; 0; 1 # 3]%Q)
    = advance n (replay_source [2 # 3; 2 # 3; 0; 1 # 3]%Q)
    /\ (forall x, In x [1; 2; 3]
                  <-> In x (samples (replay_source [2 # 3; 2 # 3; 0; 1 # 3]%Q) 1 3 n))
    /\ distinct (samples (replay_source [2 # 3; 2 # 3; 0; 1 # 3]%Q) 1 3 n) = Z.max 0 3
    /\ (forall m, (m < n)%nat ->
                  distinct (samples (replay_source [2 # 3; 2 # 3; 0; 1 # 3]%Q) 1 3 m) < 3).
Proof.
  apply (generateUniqueNumbers_stops_at_first 9 3 1 3
           (replay_source [2 # 3; 2 # 3; 0; 1 # 3]%Q)).
  reflexivity.
Defined.

Lemma add_all_distinct (l : list Z) (s : JSSet.t) :
  NoDup (s ++ l) -> add_all s l = s ++ l.
Proof.
  revert s. induction l as [|x l IH]; intros s Hnd; simpl.
  - now rewrite app_nil_r.
  - assert (Hx : JSSet.has x s = false).
    { destruct (JSSet.has x s) eqn:E; [exfalso | reflexivity].
      apply JSSetFacts.has_In in E. apply NoDup_remove_2 in Hnd.
      apply Hnd. apply in_or_app. now left. }
    unfold add_all in *. simpl. unfold JSSet.add at 2. rewrite Hx.
    rewrite IH; rewrite <- app_assoc; [reflexivity | exact Hnd].
Qed.

Lemma Array_sort_ascending (l : list Z) :
  Sorted Z.lt l -> Array_sort numeric l = l.
Proof.
  induction 1 as [|x l Hs IH Hd]; simpl; [reflexivity|].
  rewrite IH. destruct Hd as [|y l Hxy]; simpl; [reflexivity|].
  unfold numeric. destruct (Z.leb_spec (x - y) 0); [reflexivity | lia].
Qed.

Lemma Sorted_lt_NoDup (l : list Z) : Sorted Z.lt l -> NoDup l.
Proof.
  intros H. apply Sorted_StronglySorted in H; [|intros a b c; apply Z.lt_trans].
  induction H as [|x l Hs IH Hall]; constructor; [|exact IH].
  intros Hin. rewrite Forall_forall in Hall. specialize (Hall x Hin). lia.
Qed.

(** When the first [count] values of the sampler are pairwise distinct, the
    loop makes [count] iterations and the call returns the sort of these
    values. *)
Lemma generateUniqueNumbers_on_distinct_draws
      (l : list Z) (fuel : nat) (min max : Z) (rng : RandomSource) :
  NoDup l -> samples rng min max (length l) = l -> (length l <= fuel)%nat ->
  generateUniqueNumbers fuel (Z.of_nat (length l)) min max rng
  = Some (Array_sort numeric l, advance (length l) rng).
Proof.
  intros Hnd Hl Hfuel.
  apply (generateUniqueNumbers_fuel (length l) fuel); [exact Hfuel|].
  destruct (generateUniqueNumbers_terminates (length l) (Z.of_nat (length l)) min max rng)
    as [res [rng' H]].
  { rewrite Hl, distinct_NoDup by exact Hnd. lia. }
  rewrite H. pose proof H as Hrun. apply generateUniqueNumbers_run in Hrun.
  destruct Hrun as [n [s [Hn [Hr [Hs [Hres [_ [Hc _]]]]]]]].
  pose proof (add_all_size (samples rng min max n) JSSet.empty) as Hsize.
  rewrite <- Hs, samples_length in Hsize. change (JSSet.size JSSet.empty) with 0 in Hsize.
  assert (n = length l) by lia. subst n.
  rewrite Hl in Hs. rewrite add_all_distinct in Hs by exact Hnd.
  simpl in Hs. now subst.
Qed.

(** X4.  When the first [count] values returned by the sampler are pairwise
    distinct, [generateUniqueNumbers] makes exactly [count] sampler calls
    and returns these values, each once, in strictly ascending order. *)
Theorem generateUniqueNumbers_distinct_draws
        (l : list Z) (fuel : nat) (min max : Z) (rng : RandomSource) :
  NoDup l -> samples rng min max (length l) = l -> (length l <= fuel)%nat ->
  exists res : list Z,
    generateUniqueNumbers fuel (Z.of_nat (length l)) min max rng
    = Some (res, advance (length l) rng)
    /\ Sorted Z.lt res
    /\ Permutation res l.
Proof.
  intros Hnd Hl Hfuel. exists (Array_sort numeric l). split; [|split].
  - now apply generateUniqueNumbers_on_distinct_draws.
  - now apply Array_sort_set.
  - apply Array_sort_perm.
Qed.

Lemma generateUniqueNumbers_distinct_draws_witness :
  exists res : list Z,
    generateUniqueNumbers 7 (Z.of_nat (length [40; 2; 17])) 1 69
      (replay_source [39 # 69; 1 # 69; 16 # 69]%Q)
    = Some (res, advance (length [40; 2; 17]) (replay_source [39 # 69; 1 # 69; 16 # 69]%Q))
    /\ Sorted Z.lt res
    /\ Permutation res [40; 2; 17].
Proof.
  apply (generateUniqueNumbers_distinct_draws [40; 2; 17] 7 1 69
           (replay_source [39 # 69; 1 # 69; 16 # 69]%Q)).
  - repeat constructor; simpl; intuition discriminate.
  - reflexivity.
  - simpl. lia.
Defined.

(** ** Every valid result can be generated *)

Lemma sampleAt_replay (qs : list Q) (k : nat) (min max : Z) :
  sampleAt (replay_source qs) k min max
  = Math_floor (nth k qs 0%Q * inject_Z (max - min + 1)) + min.
Proof. unfold sampleAt, replay_source. simpl. now rewrite Nat.add_0_r. Qed.

Lemma map_nth_prefix {A B : Type} (h : B -> A) (l rest : list B) (d : B) :
  map (fun k => h (nth k (l ++ rest) d)) (seq 0 (length l)) = map h l.
Proof.
  induction l as [|x l IH]; simpl; [reflexivity|].
  f_equal. rewrite <- seq_shift, map_map. exact IH.
Qed.

Lemma draw_for_value (min max x : Z) :
  min <= max ->
  Math_floor (((x - min) # Z.to_pos (max - min + 1)) * inject_Z (max - min + 1)) + min
  = x.
Proof.
  intros Hle. rewrite floor_fraction, Z2Pos.id by lia.
  rewrite Z.div_mul by lia. lia.
Qed.

Lemma draw_for_ok (min max x : Z) :
  min <= x <= max ->
  (0 <= (x - min) # Z.to_pos (max - min + 1))%Q
  /\ ((x - min) # Z.to_pos (max - min + 1) < 1)%Q.
Proof.
  intros Hx. unfold Qle, Qlt. simpl. rewrite Z2Pos.id by lia. lia.
Qed.

(** The sampler returns the values of [l] on the source made for them. *)
Lemma samples_draws_for (min max : Z) (l : list Z) (rest : list Q) :
  min <= max ->
  samples (replay_source (draws_for min max l ++ rest)) min max (length l) = l.
Proof.
  intros Hle. unfold samples.
  set (F := fun q : Q => Math_floor (q * inject_Z (max - min + 1)) + min).
  assert (E : map (fun k => sampleAt (replay_source (draws_for min max l ++ rest)) k min max)
                (seq 0 (length (draws_for min max l)))
              = map F (draws_for min max l)).
  { rewrite <- (map_nth_prefix F (draws_for min max l) rest 0%Q).
    apply map_ext. intros k. apply sampleAt_replay. }
  replace (length l) with (length (draws_for min max l))
    by (unfold draws_for; apply length_map).
  rewrite E. unfold draws_for. rewrite map_map.
  rewrite (map_ext _ (fun x => x)) by (intros x; now apply draw_for_value).
  apply map_id.
Qed.

Lemma draws_for_ok (min max : Z) (l : list Z) :
  Forall (fun x => min <= x <= max) l ->
  Forall (fun q => (0 <= q)%Q /\ (q < 1)%Q) (draws_for min max l).
Proof.
  intros H. unfold draws_for. apply Forall_map.
  eapply Forall_impl; [|exact H]. intros x Hx. now apply draw_for_ok.
Qed.

(** X5.  For safe-integer bounds and a pool of at most 2^32 values, every
    strictly ascending list of integers of [min, max] is a result of
    [generateUniqueNumbers]: there are values of [Math.random] in [0, 1) on
    which the call returns it, after as many sampler calls as the list has
    elements. *)
Theorem generateUniqueNumbers_complete (l : list Z) (min max : Z) :
  isSafeInteger min -> isSafeInteger max -> max - min + 1 <= 2 ^ 32 ->
  Sorted Z.lt l -> Forall (fun x => min <= x <= max) l ->
  exists rng : RandomSource,
    random_ok rng
    /\ generateUniqueNumbers (length l) (Z.of_nat (length l)) min max rng
       = Some (l, advance (length l) rng).
Proof.
  intros _ _ _ Hs Hall. exists (replay_source (draws_for min max l ++ [])). split.
  - apply replay_source_ok. rewrite app_nil_r. now apply draws_for_ok.
  - destruct l as [|x l'] eqn:El.
    + reflexivity.
    + rewrite <- El in *.
      assert (Hle : min <= max).
      { rewrite El in Hall. inversion Hall; subst. lia. }
      rewrite generateUniqueNumbers_on_distinct_draws.
      * now rewrite Array_sort_ascending.
      * now apply Sorted_lt_NoDup.
      * now apply samples_draws_for.
      * lia.
Qed.

Lemma generateUniqueNumbers_complete_witness :
  exists rng : RandomSource,
    random_ok rng
    /\ generateUniqueNumbers (length [3; 8; 21]) (Z.of_nat (length [3; 8; 21])) 1 69 rng
       = Some ([3; 8; 21], advance (length [3; 8; 21]) rng).
Proof.
  apply (generateUniqueNumbers_complete [3; 8; 21] 1 69).
  - unfold isSafeInteger, MAX_SAFE_INTEGER. lia.
  - unfold isSafeInteger, MAX_SAFE_INTEGER. lia.
  - lia.
  - repeat constructor.
  - repeat constructor; lia.
Defined.

Lemma Array_get_index (l : list Z) (m : Z) :
  In m l ->
  exists i : Z, 0 <= i <= Z.of_nat (length l) - 1 /\ Array_get l i = Some m.
Proof.
  intros Hin. apply In_nth_error in Hin. destruct Hin as [n Hn].
  assert (n < length l)%nat by (apply nth_error_Some; congruence).
  exists (Z.of_nat n). split; [lia|].
  unfold Array_get. destruct (Z.ltb_spec (Z.of_nat n) 0); [lia|].
  now rewrite Nat2Z.id.
Qed.

(** The values of [Math.random] for a ticket: the white balls in ascending
    order, the special ball, the index of the multiplier. *)
Lemma ticket_source (pool special options : Z) (numbers : list Z) (sp i : Z) :
  0 < pool -> 0 < special -> 0 < options ->
  length numbers = 5%nat ->
  Sorted Z.lt numbers -> Forall (fun x => 1 <= x <= pool) numbers ->
  1 <= sp <= special -> 0 <= i <= options - 1 ->
  exists rng : RandomSource,
    random_ok rng
    /\ generateUniqueNumbers 5 5 1 pool rng = Some (numbers, advance 5 rng)
    /\ sampleAt rng 5 1 special = sp
    /\ sampleAt rng 6 0 (options - 1) = i.
Proof.
  intros Hpool Hspecial Hoptions Hlen Hs Hall Hsp Hi.
  set (rest := draws_for 1 special [sp] ++ draws_for 0 (options - 1) [i]).
  exists (replay_source (draws_for 1 pool numbers ++ rest)).
  assert (Hd : length (draws_for 1 pool numbers) = 5%nat)
    by (unfold draws_for; now rewrite length_map).
  split; [|split; [|split]].
  - apply replay_source_ok. apply Forall_app. split.
    + now apply draws_for_ok.
    + unfold rest. apply Forall_app. split; apply draws_for_ok; repeat constructor; lia.
  - change 5 with (Z.of_nat 5). rewrite <- Hlen.
    rewrite generateUniqueNumbers_on_distinct_draws.
    + now rewrite Array_sort_ascending.
    + now apply Sorted_lt_NoDup.
    + apply samples_draws_for. lia.
    + lia.
  - rewrite sampleAt_replay, app_nth2 by lia. rewrite Hd. simpl nth.
    apply draw_for_value. lia.
  - rewrite sampleAt_replay, app_nth2 by lia. rewrite Hd. simpl nth.
    apply draw_for_value. lia.
Qed.

(** X6.  Every valid Powerball ticket can be generated: there are values of
    [Math.random] in [0, 1) on which [generatePowerballTicket] returns it,
    after seven calls. *)
Theorem generatePowerballTicket_complete (t : PowerballTicket) :
  valid_powerball t ->
  exists rng : RandomSource,
    random_ok rng /\ generatePowerballTicket 5 rng = Some (t, advance 7 rng).
Proof.
  intros [Hlen [Hs [Hall [Hpb [m [Hm Hin]]]]]].
  destruct (Array_get_index powerPlayOptions m Hin) as [i [Hi Hget]].
  destruct (ticket_source 69 26 5 (pb_numbers t) (powerball t) i)
    as [rng [Hok [Hnum [Hsp Hidx]]]]; try assumption; try lia.
  exists rng. split; [exact Hok|].
  rewrite generatePowerballTicket_eq, Hnum, !sampleAt_advance, advance_advance.
  simpl Nat.add. change (5 - 1) with 4 in Hidx. rewrite Hsp, Hidx, Hget, <- Hm.
  now destruct t.
Qed.

Lemma generatePowerballTicket_complete_witness :
  exists rng : RandomSource,
    random_ok rng
    /\ generatePowerballTicket 5 rng
       = Some (mkPowerballTicket [1; 2; 3; 68; 69] 26 (Some 10), advance 7 rng).
Proof.
  apply (generatePowerballTicket_complete (mkPowerballTicket [1; 2; 3; 68; 69] 26 (Some 10))).
  unfold valid_powerball. simpl. repeat split; try lia.
  - repeat constructor.
  - repeat constructor; lia.
  - exists 10. simpl. tauto.
Defined.

(** X7.  Every valid Mega Millions ticket can be generated: there are
    values of [Math.random] in [0, 1) on which [generateMegaMillionsTicket]
    returns it, after seven calls. *)
Theorem generateMegaMillionsTicket_complete (t : MegaMillionsTicket) :
  valid_megamillions t ->
  exists rng : RandomSource,
    random_ok rng /\ generateMegaMillionsTicket 5 rng = Some (t, advance 7 rng).
Proof.
  intros [Hlen [Hs [Hall [Hmb [m [Hm Hin]]]]]].
  destruct (Array_get_index megaplierOptions m Hin) as [i [Hi Hget]].
  destruct (ticket_source 70 25 4 (mm_numbers t) (megaBall t) i)
    as [rng [Hok [Hnum [Hsp Hidx]]]]; try assumption; try lia.
  exists rng. split; [exact Hok|].
  rewrite generateMegaMillionsTicket_eq, Hnum, !sampleAt_advance, advance_advance.
  simpl Nat.add. change (4 - 1) with 3 in Hidx. rewrite Hsp, Hidx, Hget, <- Hm.
  now destruct t.
Qed.

Lemma generateMegaMillionsTicket_complete_witness :
  exists rng : RandomSource,
    random_ok rng
    /\ generateMegaMillionsTicket 5 rng
       = Some (mkMegaMillionsTicket [1; 2; 3; 69; 70] 25 (Some 5), advance 7 rng).
Proof.
  apply (generateMegaMillionsTicket_complete
           (mkMegaMillionsTicket [1; 2; 3; 69; 70] 25 (Some 5))).
  unfold valid_megamillions. simpl. repeat split; try lia.
  - repeat constructor.
  - repeat constructor; lia.
  - exists 5. simpl. tauto.
Defined.

(** * The components *)

(** ** Array.prototype.map *)

Lemma Array_map_from_length {A B : Type} (f : A -> nat -> B) (l : list A) (k : nat) :
  length (Array_map_from k f l) = length l.
Proof.
  revert k. induction l as [|x l IH]; intros k; simpl; [reflexivity|].
  now rewrite IH.
Qed.

Lemma Array_map_from_nth {A B : Type} (f : A -> nat -> B) (l : list A) (k i : nat) :
  nth_error (Array_map_from k f l) i
  = option_map (fun x => f x (k + i)%nat) (nth_error l i).
Proof.
  revert k i. induction l as [|x l IH]; intros k [|i]; simpl; try reflexivity.
  - now rewrite Nat.add_0_r.
  - rewrite IH. now rewrite Nat.add_succ_r.
Qed.

Lemma Array_map_from_In {A B : Type} (f : A -> nat -> B) (l : list A) (k : nat) (y : B) :
  In y (Array_map_from k f l) ->
  exists x i, In x l /\ (k <= i < k + length l)%nat /\ y = f x i.
Proof.
  revert k. induction l as [|x l IH]; intros k; simpl; [tauto|].
  intros [<- | Hin].
  - exists x, k. repeat split; [now left | lia | lia].
  - apply IH in Hin. destruct Hin as [x' [i [Hx' [Hi Hy]]]].
    exists x', i. repeat split; [now right | lia | lia | exact Hy].
Qed.

Lemma Array_map_from_fst {A B : Type} (key : nat -> string) (body : A -> B)
      (l : list A) (k : nat) :
  map fst (Array_map_from k (fun x idx => (key idx, body x)) l)
  = map key (seq k (length l)).
Proof.
  revert k. induction l as [|x l IH]; intros k; simpl; [reflexivity|].
  now rewrite IH.
Qed.

(** ** The tickets of the state *)

Lemma generatePowerballTicket_wf (fuel : nat) (rng : RandomSource)
      (t : PowerballTicket) (rng' : RandomSource) :
  random_ok rng ->
  generatePowerballTicket fuel rng = Some (t, rng') ->
  valid_powerball t /\ random_ok rng'.
Proof.
  intros Hok H.
  destruct (generatePowerballTicket_inv _ _ _ _ H) as [n [E [Hpb [Hpp Hr]]]].
  destruct (generateUniqueNumbers_result _ _ _ _ _ _ _ E) as [Hlen [_ [Hs Hall]]].
  split; [|subst rng'; intros k; exact (Hok k)].
  unfold valid_powerball. repeat split; try assumption.
  - apply Hall; [exact Hok | lia].
  - rewrite Hpb. apply sampleAt_range; [exact Hok | lia].
  - rewrite Hpb. apply sampleAt_range; [exact Hok | lia].
  - rewrite Hpp. apply Array_get_in_range.
    pose proof (sampleAt_range rng (S n) 0 4 Hok ltac:(lia)). simpl. lia.
Qed.

Lemma generateMegaMillionsTicket_wf (fuel : nat) (rng : RandomSource)
      (t : MegaMillionsTicket) (rng' : RandomSource) :
  random_ok rng ->
  generateMegaMillionsTicket fuel rng = Some (t, rng') ->
  valid_megamillions t /\ random_ok rng'.
Proof.
  intros Hok H.
  destruct (generateMegaMillionsTicket_inv _ _ _ _ H) as [n [E [Hmb [Hmp Hr]]]].
  destruct (generateUniqueNumbers_result _ _ _ _ _ _ _ E) as [Hlen [_ [Hs Hall]]].
  split; [|subst rng'; intros k; exact (Hok k)].
  unfold valid_megamillions. repeat split; try assumption.
  - apply Hall; [exact Hok | lia].
  - rewrite Hmb. apply sampleAt_range; [exact Hok | lia].
  - rewrite Hmb. apply sampleAt_range; [exact Hok | lia].
  - rewrite Hmp. apply Array_get_in_range.
    pose proof (sampleAt_range rng (S n) 0 3 Hok ltac:(lia)). simpl. lia.
Qed.

Lemma handleGeneratePowerball_inv (fuel : nat) (st : AppState) (rng : RandomSource)
      (st' : AppState) (rng' : RandomSource) :
  handleGeneratePowerball fuel st rng = Some (st', rng') ->
  exists newTicket,
    generatePowerballTicket fuel rng = Some (newTicket, rng')
    /\ st' = mkAppState (newTicket :: powerballTickets st) (megaMillionsTickets st).
Proof.
  unfold handleGeneratePowerball, bind.
  destruct (generatePowerballTicket fuel rng) as [[t r]|]; [|discriminate].
  intros H. injection H as <- <-. eauto.
Qed.

Lemma handleGenerateMegaMillions_inv (fuel : nat) (st : AppState) (rng : RandomSource)
      (st' : AppState) (rng' : RandomSource) :
  handleGenerateMegaMillions fuel st rng = Some (st', rng') ->
  exists newTicket,
    generateMegaMillionsTicket fuel rng = Some (newTicket, rng')
    /\ st' = mkAppState (powerballTickets st) (newTicket :: megaMillionsTickets st).
Proof.
  unfold handleGenerateMegaMillions, bind.
  destruct (generateMegaMillionsTicket fuel rng) as [[t r]|]; [|discriminate].
  intros H. injection H as <- <-. eauto.
Qed.

Lemma App_clicks_cons (fuel : nat) (c : Click) (cs : list Click) (st : AppState)
      (rng : RandomSource) (st' : AppState) (rng' : RandomSource) :
  App_clicks fuel (c :: cs) st rng = Some (st', rng') ->
  exists st1 rng1,
    App_click fuel c st rng = Some (st1, rng1)
    /\ App_clicks fuel cs st1 rng1 = Some (st', rng').
Proof.
  simpl. unfold bind at 1.
  destruct (App_click fuel c st rng) as [[st1 rng1]|]; [|discriminate]. eauto.
Qed.

Lemma App_clicks_valid (fuel : nat) (cs : list Click) :
  forall (st : AppState) (rng : RandomSource) (st' : AppState) (rng' : RandomSource),
    random_ok rng ->
    Forall valid_powerball (powerballTickets st) ->
    Forall valid_megamillions (megaMillionsTickets st) ->
    App_clicks fuel cs st rng = Some (st', rng') ->
    Forall valid_powerball (powerballTickets st')
    /\ Forall valid_megamillions (megaMillionsTickets st').
Proof.
  induction cs as [|c cs IH]; intros st rng st' rng' Hok Hpb Hmm H.
  - injection H as <- _. now split.
  - apply App_clicks_cons in H. destruct H as [st1 [rng1 [Hc H]]].
    destruct c; simpl in Hc.
    + apply handleGeneratePowerball_inv in Hc. destruct Hc as [t [Hg ->]].
      destruct (generatePowerballTicket_wf _ _ _ _ Hok Hg) as [Ht Hok1].
      apply (IH _ _ _ _ Hok1) in H; simpl; auto.
    + apply handleGenerateMegaMillions_inv in Hc. destruct Hc as [t [Hg ->]].
      destruct (generateMegaMillionsTicket_wf _ _ _ _ Hok Hg) as [Ht Hok1].
      apply (IH _ _ _ _ Hok1) in H; simpl; auto.
    + injection Hc as <- <-. apply (IH _ _ _ _ Hok) in H; simpl; auto.
Qed.

(** X8.  With [Math.random] in [0, 1), after any sequence of clicks on the
    three buttons every ticket the state of App holds is valid: the
    Powerball tickets by the Powerball rules, the Mega Millions tickets by
    the Mega Millions rules. *)
Theorem App_tickets_valid (fuel : nat) (cs : list Click) (rng : RandomSource)
        (st' : AppState) (rng' : RandomSource) :
  random_ok rng ->
  App_clicks fuel cs App_initial rng = Some (st', rng') ->
  Forall valid_powerball (powerballTickets st')
  /\ Forall valid_megamillions (megaMillionsTickets st').
Proof.
  intros Hok H.
  apply (App_clicks_valid fuel cs App_initial rng st' rng' Hok); auto; constructor.
Qed.

Lemma App_tickets_valid_witness :
  exists st' rng',
    App_clicks 5 [ClickPowerball; ClickMegaMillions; ClickClearAll;
                  ClickMegaMillions; ClickPowerball; ClickPowerball]
      App_initial (cycling_source 69) = Some (st', rng')
    /\ length (powerballTickets st') = 2%nat
    /\ Forall valid_powerball (powerballTickets st')
    /\ Forall valid_megamillions (megaMillionsTickets st').
Proof.
  destruct (App_clicks 5 [ClickPowerball; ClickMegaMillions; ClickClearAll;
                          ClickMegaMillions; ClickPowerball; ClickPowerball]
              App_initial (cycling_source 69)) as [[st' rng']|] eqn:E.
  - exists st', rng'. split; [reflexivity|]. split.
    + vm_compute in E. injection E as <- _. reflexivity.
    + exact (App_tickets_valid _ _ _ _ _ (cycling_source_ok 69) E).
  - vm_compute in E. discriminate.
Defined.

(** X9.  The number of tickets of each kind in the state after a sequence
    of clicks is the number of clicks on the button of that kind since the
    last click on Clear All (added to the tickets of the starting state when
    Clear All was not clicked). *)
Theorem App_ticket_counts (fuel : nat) (cs : list Click) :
  forall (st : AppState) (rng : RandomSource) (st' : AppState) (rng' : RandomSource),
    App_clicks fuel cs st rng = Some (st', rng') ->
    length (powerballTickets st')
    = count_clicks is_powerball_click cs (length (powerballTickets st))
    /\ length (megaMillionsTickets st')
       = count_clicks is_megamillions_click cs (length (megaMillionsTickets st)).
Proof.
  induction cs as [|c cs IH]; intros st rng st' rng' H.
  - injection H as <- _. now split.
  - apply App_clicks_cons in H. destruct H as [st1 [rng1 [Hc H]]].
    apply IH in H. destruct c; simpl in Hc.
    + apply handleGeneratePowerball_inv in Hc. destruct Hc as [t [_ ->]]. exact H.
    + apply handleGenerateMegaMillions_inv in Hc. destruct Hc as [t [_ ->]]. exact H.
    + injection Hc as <- _. exact H.
Qed.

Lemma App_ticket_counts_witness :
  exists st' rng',
    App_clicks 5 [ClickPowerball; ClickMegaMillions; ClickClearAll;
                  ClickMegaMillions; ClickPowerball; ClickPowerball]
      App_initial (cycling_source 69) = Some (st', rng')
    /\ length (powerballTickets st') = 2%nat
    /\ length (megaMillionsTickets st') = 1%nat.
Proof.
  destruct (App_clicks 5 [ClickPowerball; ClickMegaMillions; ClickClearAll;
                          ClickMegaMillions; ClickPowerball; ClickPowerball]
              App_initial (cycling_source 69)) as [[st' rng']|] eqn:E.
  - exists st', rng'. split; [reflexivity|].
    exact (App_ticket_counts _ _ _ _ _ _ E).
  - vm_compute in E. discriminate.
Defined.

(** ** What App renders *)

Lemma view_tickets_length (st : AppState) :
  length (view_tickets (App_render st))
  = (length (powerballTickets st) + length (megaMillionsTickets st))%nat.
Proof.
  unfold App_render, Array_map. simpl.
  now rewrite length_app, !Array_map_from_length.
Qed.

(** X10.  The Clear All button is on the page exactly when the empty-state
    message is not, and the message is on the page exactly when the tickets
    container has no child. *)
Theorem App_clear_button_and_empty_state (st : AppState) :
  view_clearButton (App_render st) = negb (view_emptyState (App_render st))
  /\ (view_emptyState (App_render st) = true <-> view_tickets (App_render st) = []).
Proof.
  split.
  - unfold App_render. simpl.
    destruct (powerballTickets st), (megaMillionsTickets st); reflexivity.
  - rewrite <- length_zero_iff_nil, view_tickets_length.
    unfold App_render. simpl.
    rewrite andb_true_iff, !Z.eqb_eq. lia.
Qed.

(** X11.  A click on Generate Powerball that returns puts the card of the
    new ticket first in the tickets container, under the key powerball-0,
    and moves every card that was on the page one place down; the cards of
    the Powerball tickets get the key of the next index, the cards of the
    Mega Millions tickets keep their keys. *)
Theorem handleGeneratePowerball_view
        (fuel : nat) (st : AppState) (rng : RandomSource)
        (st' : AppState) (rng' : RandomSource) :
  handleGeneratePowerball fuel st rng = Some (st', rng') ->
  (exists newTicket,
      generatePowerballTicket fuel rng = Some (newTicket, rng')
      /\ nth_error (view_tickets (App_render st')) 0
         = Some ("powerball-0"%string,
                 LotteryTicket type_powerball (PowerballObject newTicket)))
  /\ (forall i key card,
         nth_error (view_tickets (App_render st)) i = Some (key, card) ->
         nth_error (view_tickets (App_render st')) (S i)
         = Some (if (i <? length (powerballTickets st))%nat
                 then ("powerball-" ++ decimal (S i))%string
                 else key,
                 card)).
Proof.
  intros H. apply handleGeneratePowerball_inv in H. destruct H as [t [Hg ->]].
  split; [exists t; split; [exact Hg | reflexivity]|].
  intros i key card. unfold App_render, Array_map.
  cbn [view_tickets powerballTickets megaMillionsTickets Array_map_from].
  rewrite <- app_comm_cons. cbn [nth_error].
  destruct (Nat.ltb_spec i (length (powerballTickets st))) as [Hi | Hi].
  - rewrite !nth_error_app1 by (rewrite Array_map_from_length; exact Hi).
    rewrite !Array_map_from_nth.
    destruct (nth_error (powerballTickets st) i) as [x|]; cbn [option_map]; [|discriminate].
    intros E. injection E as _ <-. reflexivity.
  - rewrite !nth_error_app2 by (rewrite Array_map_from_length; exact Hi).
    rewrite !Array_map_from_length. intros E. rewrite E. reflexivity.
Qed.

Lemma handleGeneratePowerball_view_witness :
  exists st1 rng1 st2 rng2 card,
    handleGeneratePowerball 5 App_initial (cycling_source 69) = Some (st1, rng1)
    /\ handleGeneratePowerball 5 st1 rng1 = Some (st2, rng2)
    /\ nth_error (view_tickets (App_render st1)) 0 = Some ("powerball-0"%string, card)
    /\ nth_error (view_tickets (App_render st2)) 1 = Some ("powerball-1"%string, card).
Proof.
  destruct (handleGeneratePowerball 5 App_initial (cycling_source 69))
    as [[st1 rng1]|] eqn:E1; [|vm_compute in E1; discriminate].
  destruct (handleGeneratePowerball 5 st1 rng1)
    as [[st2 rng2]|] eqn:E2;
    [|vm_compute in E1; injection E1 as <- <-; vm_compute in E2; discriminate].
  destruct (handleGeneratePowerball_view 5 App_initial (cycling_source 69) st1 rng1 E1)
    as [[t1 [_ H1]] _].
  destruct (handleGeneratePowerball_view 5 st1 rng1 st2 rng2 E2) as [_ Hmove].
  specialize (Hmove 0%nat _ _ H1).
  exists st1, rng1, st2, rng2, (LotteryTicket type_powerball (PowerballObject t1)).
  split; [reflexivity|]. split; [exact E2|]. split; [exact H1|].
  rewrite Hmove. f_equal. f_equal.
  vm_compute in E1. injection E1 as <- _. reflexivity.
Defined.

Lemma decimal_inj (n m : nat) : decimal n = decimal m -> n = m.
Proof.
  unfold decimal. intros H.
  apply (f_equal NilEmpty.uint_of_string) in H. rewrite !NilEmpty.usu in H.
  injection H as H. now apply Unsigned.to_uint_inj.
Qed.

(** X12.  The keys of the children of the tickets container are pairwise
    distinct, whatever the state. *)
Theorem App_keys_distinct (st : AppState) :
  NoDup (map fst (view_tickets (App_render st))).
Proof.
  unfold App_render, Array_map. cbn [view_tickets].
  rewrite map_app.
  rewrite (Array_map_from_fst (fun idx => ("powerball-" ++ decimal idx)%string)
             (fun ticket => LotteryTicket type_powerball (PowerballObject ticket))).
  rewrite (Array_map_from_fst (fun idx => ("megamillions-" ++ decimal idx)%string)
             (fun ticket => LotteryTicket type_megamillions (MegaMillionsObject ticket))).
  apply NoDup_app.
  - apply Injective_map_NoDup; [|apply seq_NoDup].
    intros a b Hab. simpl in Hab. injection Hab as Hab. now apply decimal_inj.
  - apply Injective_map_NoDup; [|apply seq_NoDup].
    intros a b Hab. simpl in Hab. injection Hab as Hab. now apply decimal_inj.
  - intros key Hp Hm. apply in_map_iff in Hp. apply in_map_iff in Hm.
    destruct Hp as [a [<- _]]. destruct Hm as [b [Hb _]]. simpl in Hb. discriminate.
Qed.

(** ** The component LotteryTicket *)

(** X13.  The component shows a special ball exactly when the type it is
    given is the type of the ticket object: with the other type the casts
    read a property the object does not have, and both the special ball and
    the multiplier are undefined. *)
Theorem LotteryTicket_special_ball (type : LotteryType) (ticket : Ticket) :
  (card_specialBall (LotteryTicket type ticket) <> None <-> type = ticket_type ticket)
  /\ (type <> ticket_type ticket ->
      card_specialBall (LotteryTicket type ticket) = None
      /\ card_multiplier (LotteryTicket type ticket) = None)
  /\ map snd (card_numbers (LotteryTicket type ticket)) = get_numbers ticket.
Proof.
  split; [|split].
  - destruct type, ticket; simpl; split; intros H; congruence.
  - destruct type, ticket; simpl; intros H; try congruence; now split.
  - unfold LotteryTicket, Array_map. simpl.
    generalize 0%nat. induction (get_numbers ticket) as [|x l IH]; intros k; simpl;
      [reflexivity | now rewrite IH].
Qed.

Lemma card_numbers_keys (k : nat) (l : list Z) :
  map fst (Array_map_from k (fun (num : Z) (idx : nat) => (idx, num)) l)
  = seq k (length l)
  /\ map snd (Array_map_from k (fun (num : Z) (idx : nat) => (idx, num)) l) = l.
Proof.
  revert k. induction l as [|x l IH]; intros k; simpl; [now split|].
  destruct (IH (S k)) as [-> ->]. now split.
Qed.

(** X14.  With [Math.random] in [0, 1), after any sequence of clicks every
    card of the tickets container shows five white balls in ascending order
    under the keys 0 to 4, and, under the title of its game, a special ball
    and a multiplier that are defined and allowed by the rules of that
    game. *)
Theorem App_cards_valid (fuel : nat) (cs : list Click) (rng : RandomSource)
        (st' : AppState) (rng' : RandomSource) (key : string) (card : TicketCard) :
  random_ok rng ->
  App_clicks fuel cs App_initial rng = Some (st', rng') ->
  In (key, card) (view_tickets (App_render st')) ->
  map fst (card_numbers card) = [0; 1; 2; 3; 4]%nat
  /\ Sorted Z.lt (map snd (card_numbers card))
  /\ ((card_title card = "Powerball"%string
       /\ card_specialBallLabel card = "Powerball"%string
       /\ card_multiplierLabel card = "Power Play"%string
       /\ Forall (fun x => 1 <= x <= 69) (map snd (card_numbers card))
       /\ exists sp m,
           card_specialBall card = Some sp /\ 1 <= sp <= 26
           /\ card_multiplier card = Some m /\ In m powerPlayOptions)
      \/ (card_title card = "Mega Millions"%string
          /\ card_specialBallLabel card = "Mega Ball"%string
          /\ card_multiplierLabel card = "Megaplier"%string
          /\ Forall (fun x => 1 <= x <= 70) (map snd (card_numbers card))
          /\ exists sp m,
              card_specialBall card = Some sp /\ 1 <= sp <= 25
              /\ card_multiplier card = Some m /\ In m megaplierOptions)).
Proof.
  intros Hok Hrun Hin.
  destruct (App_clicks_valid fuel cs App_initial rng st' rng' Hok
              ltac:(constructor) ltac:(constructor) Hrun) as [Hpb Hmm].
  unfold App_render, Array_map in Hin. cbn [view_tickets] in Hin.
  apply in_app_or in Hin. destruct Hin as [Hin | Hin];
    apply Array_map_from_In in Hin; destruct Hin as [t [i [Ht [_ E]]]];
    injection E as _ ->.
  - rewrite Forall_forall in Hpb. specialize (Hpb t Ht).
    destruct Hpb as [Hlen [Hs [Hall [Hsp [m [Hm Hinm]]]]]].
    unfold LotteryTicket, Array_map. cbn -[Array_map_from].
    destruct (card_numbers_keys 0 (pb_numbers t)) as [-> ->]. rewrite Hlen.
    split; [reflexivity|]. split; [exact Hs|]. left.
    repeat split; try assumption. exists (powerball t), m. auto.
  - rewrite Forall_forall in Hmm. specialize (Hmm t Ht).
    destruct Hmm as [Hlen [Hs [Hall [Hsp [m [Hm Hinm]]]]]].
    unfold LotteryTicket, Array_map. cbn -[Array_map_from].
    destruct (card_numbers_keys 0 (mm_numbers t)) as [-> ->]. rewrite Hlen.
    split; [reflexivity|]. split; [exact Hs|]. right.
    repeat split; try assumption. exists (megaBall t), m. auto.
Qed.

Lemma App_cards_valid_witness :
  exists st' rng' key card,
    App_clicks 5 [ClickMegaMillions; ClickPowerball] App_initial (cycling_source 69)
    = Some (st', rng')
    /\ nth_error (view_tickets (App_render st')) 1 = Some (key, card)
    /\ card_title card = "Mega Millions"%string
    /\ map fst (card_numbers card) = [0; 1; 2; 3; 4]%nat
    /\ Sorted Z.lt (map snd (card_numbers card)).
Proof.
  destruct (App_clicks 5 [ClickMegaMillions; ClickPowerball] App_initial
              (cycling_source 69)) as [[st' rng']|] eqn:E;
    [|vm_compute in E; discriminate].
  destruct (nth_error (view_tickets (App_render st')) 1) as [[key card]|] eqn:En;
    [|vm_compute in E; injection E as <- _; vm_compute in En; discriminate].
  exists st', rng', key, card. split; [reflexivity|]. split; [exact En|].
  destruct (App_cards_valid 5 _ _ _ _ key card (cycling_source_ok 69) E)
    as [Hkeys [Hsorted _]].
  - eapply nth_error_In. exact En.
  - split; [|split; assumption].
    vm_compute in E. injection E as <- _. vm_compute in En.
    injection En as _ <-. reflexivity.
Defined.
